(** * The per-peer replication engine of the raft server ([peer.go])

    A shallow embedding of [peer.go]: the [Peer] record, the heartbeat
    back-off, [flush] with its append-entries and snapshot paths, the
    heartbeat loop and [sendVoteRequest], followed by the properties the
    specification states about them.

    Conventions.
    - [uint64] values (log indices, terms) are [Z]; the only arithmetic
      the file does on them is [p.prevLogIndex--], written with its
      wrap-around [wrap_uint64].
    - [time.Duration] is a signed 64-bit count of nanoseconds: a [Z] whose
      products are reduced with [wrap_int64].
    - [failedHeartbeats] is a [float64] that only ever holds 0 or the
      result of [++]: an integer, kept as a [Z] (see [float64_succ]).
    - Every method of [Peer] returns nothing and works by side effect; it
      is a transformer of a [World] made of the peer's fields and the
      chronological list of the effects performed on the collaborators
      (transport calls, dispatched events, responses handed to the
      server).
    - The mutex, the stop channel and the back pointer to the server are
      not fields of the model: the server a method reads through
      [p.server] is an explicit argument, the stop channel is the input of
      the heartbeat loop. *)

From Stdlib Require Import ZArith List String Bool Lia.
Import ListNotations.
Local Open Scope Z_scope.

(** ** Machine arithmetic *)

Definition wrap_uint64 (z : Z) : Z := z mod 2 ^ 64.

Definition min_int64 : Z := - 2 ^ 63.
Definition max_int64 : Z := 2 ^ 63 - 1.

Definition wrap_int64 (z : Z) : Z := (z + 2 ^ 63) mod 2 ^ 64 - 2 ^ 63.

Definition uint64_range (z : Z) : Prop := 0 <= z < 2 ^ 64.
Definition int64_range (z : Z) : Prop := min_int64 <= z <= max_int64.

(** [x++] on a [float64] holding an integer of [0, 2^53]: exact below
    2^53; there [2^53 + 1] is not representable and rounds (to even) back
    to [2^53]. A counter that starts at 0 and is only incremented or
    reset never leaves that range. *)
Definition float64_succ (x : Z) : Z := if x <? 2 ^ 53 then x + 1 else x.

(** ** Messages and collaborators

    The types below are declared in other files of the package; only the
    fields [peer.go] reads or writes are kept. *)

Module LogEntry.
Record t := mk { Index : Z; Term : Z; Command : string }.
Definition GetIndex (e : t) : Z := Index e.
Definition GetTerm (e : t) : Z := Term e.
End LogEntry.

Module AppendEntriesRequest.
Record t := mk
  { Term : Z;
    PrevLogIndex : Z;
    PrevLogTerm : Z;
    CommitIndex : Z;
    LeaderName : string;
    Entries : list LogEntry.t }.
End AppendEntriesRequest.

(** Modelled from the spec: the constructor [newAppendEntriesRequest] is
    not in [peer.go]; the request is built from
    {term, prevIndex, prevTerm, leaderCommitIndex, leaderId, entries}. *)
Definition newAppendEntriesRequest (term prevLogIndex prevLogTerm commitIndex : Z)
    (leaderName : string) (entries : list LogEntry.t) : AppendEntriesRequest.t :=
  AppendEntriesRequest.mk term prevLogIndex prevLogTerm commitIndex leaderName entries.

Module AppendEntriesResponse.
(** [peer] is empty until a name is attached; [append] is the leader's
    local marker. *)
Record t := mk
  { Term : Z;
    Index : Z;
    CommitIndex : Z;
    Success : bool;
    peer : string;
    append : bool }.
Definition set_append (b : bool) (r : t) : t :=
  mk (Term r) (Index r) (CommitIndex r) (Success r) (peer r) b.
Definition set_peer (n : string) (r : t) : t :=
  mk (Term r) (Index r) (CommitIndex r) (Success r) n (append r).
End AppendEntriesResponse.

Module Snapshot.
Record t := mk { LastIndex : Z; LastTerm : Z; State : string }.
End Snapshot.

Module SnapshotRequest.
Record t := mk { LeaderName : string; LastIndex : Z; LastTerm : Z }.
End SnapshotRequest.

Module SnapshotResponse.
Record t := mk { Success : bool }.
End SnapshotResponse.

Module SnapshotRecoveryRequest.
Record t := mk
  { LeaderName : string; LastIndex : Z; LastTerm : Z; State : string }.
End SnapshotRecoveryRequest.

Module SnapshotRecoveryResponse.
Record t := mk { Term : Z; Success : bool; CommitIndex : Z }.
End SnapshotRecoveryResponse.

(** Modelled from the spec: the constructor [newSnapshotRequest] is not in
    [peer.go]; the offer carries the leader's name and the snapshot's
    metadata. *)
Definition newSnapshotRequest (leaderName : string) (snapshot : Snapshot.t)
    : SnapshotRequest.t :=
  SnapshotRequest.mk leaderName (Snapshot.LastIndex snapshot) (Snapshot.LastTerm snapshot).

(** Modelled from the spec: the constructor [newSnapshotRecoveryRequest] is
    not in [peer.go]; the request carries the leader's name and the full
    snapshot, its last included index among it. *)
Definition newSnapshotRecoveryRequest (leaderName : string) (snapshot : Snapshot.t)
    : SnapshotRecoveryRequest.t :=
  SnapshotRecoveryRequest.mk leaderName (Snapshot.LastIndex snapshot)
    (Snapshot.LastTerm snapshot) (Snapshot.State snapshot).

(** ** The peer *)

(** [time.Tick d]: a channel firing every [d], or the nil channel, which
    never fires, when [d <= 0]. *)
Inductive Ticker :=
| NilTicker
| Every (period : Z).

Definition time_Tick (d : Z) : Ticker :=
  if d <=? 0 then NilTicker else Every d.

Record Peer := mkPeer
  { Name : string;
    ConnectionString : string;
    prevLogIndex : Z;
    heartbeatInterval : Z;
    heartbeatTicker : Ticker;
    failedHeartbeats : Z }.

Definition set_prevLogIndex (v : Z) (p : Peer) : Peer :=
  mkPeer (Name p) (ConnectionString p) v (heartbeatInterval p)
    (heartbeatTicker p) (failedHeartbeats p).

Definition set_heartbeatInterval (v : Z) (p : Peer) : Peer :=
  mkPeer (Name p) (ConnectionString p) (prevLogIndex p) v
    (heartbeatTicker p) (failedHeartbeats p).

Definition set_heartbeatTicker (v : Ticker) (p : Peer) : Peer :=
  mkPeer (Name p) (ConnectionString p) (prevLogIndex p) (heartbeatInterval p)
    v (failedHeartbeats p).

Definition set_failedHeartbeats (v : Z) (p : Peer) : Peer :=
  mkPeer (Name p) (ConnectionString p) (prevLogIndex p) (heartbeatInterval p)
    (heartbeatTicker p) v.

Module RequestVoteRequest.
Record t := mk
  { peer : option Peer;
    Term : Z;
    LastLogIndex : Z;
    LastLogTerm : Z;
    CandidateName : string }.
Definition set_peer (p : Peer) (r : t) : t :=
  mk (Some p) (Term r) (LastLogIndex r) (LastLogTerm r) (CandidateName r).
End RequestVoteRequest.

Module RequestVoteResponse.
Record t := mk { peer : option Peer; Term : Z; VoteGranted : bool }.
Definition set_peer (p : Peer) (r : t) : t :=
  mk (Some p) (Term r) (VoteGranted r).
End RequestVoteResponse.

(** The transport: each call answers with a response or with nil. The
    receiver's server argument is the server that owns the record; what
    the network answers at another time is the transport of the server
    of that time (see [heartbeat_loop]). *)
Record Transporter := mkTransporter
  { SendAppendEntriesRequest :
      Peer -> AppendEntriesRequest.t -> option AppendEntriesResponse.t;
    SendSnapshotRequest :
      Peer -> SnapshotRequest.t -> option SnapshotResponse.t;
    SendSnapshotRecoveryRequest :
      Peer -> SnapshotRecoveryRequest.t -> option SnapshotRecoveryResponse.t;
    SendVoteRequest :
      Peer -> RequestVoteRequest.t -> option RequestVoteResponse.t }.

(** What [peer.go] reads of its server. [log_getEntriesAfter] answers
    [(None, _)] for the nil slice and [(Some l, prevTerm)] otherwise, the
    empty batch included. *)
Record server := mkServer
  { name : string;
    currentTerm : Z;
    log_getEntriesAfter : Z -> Z -> option (list LogEntry.t) * Z;
    log_CommitIndex : Z;
    maxLogEntriesPerRequest : Z;
    snapshot : Snapshot.t;
    transporter : Transporter }.

(** ** Effects *)

Inductive EventType := HeartbeatEventType | HeartbeatIntervalEventType.

Inductive EventSource :=
| DurationSource (d : Z)
| PeerSource (p : Peer).

Record Event := newEvent { etype : EventType; source : EventSource }.

Inductive Inbound :=
| InAppendEntries (r : AppendEntriesResponse.t)
| InSnapshotRecovery (r : SnapshotRecoveryResponse.t).

Inductive Effect :=
| CallAppendEntries (p : Peer) (req : AppendEntriesRequest.t)
| CallSnapshot (p : Peer) (req : SnapshotRequest.t)
| CallSnapshotRecovery (p : Peer) (req : SnapshotRecoveryRequest.t)
| CallVote (p : Peer) (req : RequestVoteRequest.t)
| Dispatched (e : Event)
| SentAsync (m : Inbound).

Record World := mkWorld { peer : Peer; trace : list Effect }.

Definition emit (e : Effect) (w : World) : World :=
  mkWorld (peer w) (trace w ++ [e]).

Definition with_peer (f : Peer -> Peer) (w : World) : World :=
  mkWorld (f (peer w)) (trace w).

(** [p.server.DispatchEvent] and [p.server.sendAsync]. *)
Definition DispatchEvent (e : Event) (w : World) : World := emit (Dispatched e) w.
Definition sendAsync (m : Inbound) (w : World) : World := emit (SentAsync m) w.

(** ** The methods of [Peer] *)

Section Peer.

(** [time.Duration(f)] of a [float64] that does not fit in an [int64]
    succeeds with a value the language leaves to the implementation;
    the value is taken as given, as a function of the exponent. *)
Variable float64_to_int64_overflow : Z -> Z.

(** [func (p *Peer) setHeartbeatInterval(duration time.Duration)] *)
Definition setHeartbeatInterval (duration : Z) (p : Peer) : Peer :=
  set_heartbeatInterval duration p.

(** [func (p *Peer) getPrevLogIndex() uint64] *)
Definition getPrevLogIndex (p : Peer) : Z := prevLogIndex p.

(** [func (p *Peer) setPrevLogIndex(value uint64)] *)
Definition setPrevLogIndex (value : Z) (p : Peer) : Peer :=
  set_prevLogIndex value p.

(** [func (p *Peer) resetHeartbeatInterval()] *)
Definition resetHeartbeatInterval (p : Peer) : Peer :=
  let p := set_failedHeartbeats 0 p in
  set_heartbeatTicker (time_Tick (heartbeatInterval p)) p.

(** [time.Duration(math.Pow(float64(2), e))] for an integer [e]: the
    power is exact; below 1 it truncates to 0, from 2^63 on it does not
    fit. *)
Definition duration_of_pow2 (e : Z) : Z :=
  if e <? 0 then 0
  else if e <? 63 then 2 ^ e
  else float64_to_int64_overflow e.

(** [func (p *Peer) heartbeatDuration() time.Duration] *)
Definition heartbeatDuration (p : Peer) : Z :=
  wrap_int64 (heartbeatInterval p * duration_of_pow2 (failedHeartbeats p)).

(** [func (p *Peer) backoffHeartbeat()] *)
Definition backoffHeartbeat (p : Peer) : Peer :=
  let p := set_failedHeartbeats (float64_succ (failedHeartbeats p)) p in
  set_heartbeatTicker (time_Tick (heartbeatDuration p)) p.

(** [func (p *Peer) clone() *Peer]: the fields left out of the literal
    take their zero value. *)
Definition clone (p : Peer) : Peer :=
  mkPeer (Name p) (ConnectionString p) (prevLogIndex p) 0 NilTicker 0.

(** [func (p *Peer) sendAppendEntriesRequest(req *AppendEntriesRequest)] *)
Definition sendAppendEntriesRequest (s : server) (req : AppendEntriesRequest.t)
    (w : World) : World :=
  let w := emit (CallAppendEntries (peer w) req) w in
  match SendAppendEntriesRequest (transporter s) (peer w) req with
  | None =>
      let w := with_peer backoffHeartbeat w in
      DispatchEvent (newEvent HeartbeatIntervalEventType (PeerSource (peer w))) w
  | Some resp =>
      let w :=
        if negb (failedHeartbeats (peer w) =? 0)
        then with_peer resetHeartbeatInterval w
        else w in
      let p := peer w in
      let '(p, resp) :=
        if AppendEntriesResponse.Success resp then
          let entries := AppendEntriesRequest.Entries req in
          if (0 <? List.length entries)%nat then
            match nth_error entries (List.length entries - 1) with
            | Some last =>
                let p := set_prevLogIndex (LogEntry.GetIndex last) p in
                if LogEntry.GetTerm last =? currentTerm s
                then (p, AppendEntriesResponse.set_append true resp)
                else (p, resp)
            | None => (p, resp)
            end
          else (p, resp)
        else
          if AppendEntriesResponse.Term resp >? currentTerm s then
            (p, resp)
          else if (AppendEntriesResponse.Term resp =? AppendEntriesRequest.Term req)
                  && (AppendEntriesResponse.CommitIndex resp >=? prevLogIndex p) then
            (set_prevLogIndex (AppendEntriesResponse.CommitIndex resp) p, resp)
          else if prevLogIndex p >? 0 then
            let p := set_prevLogIndex (wrap_uint64 (prevLogIndex p - 1)) p in
            if prevLogIndex p >? AppendEntriesResponse.Index resp
            then (set_prevLogIndex (AppendEntriesResponse.Index resp) p, resp)
            else (p, resp)
          else (p, resp) in
      let resp := AppendEntriesResponse.set_peer (Name p) resp in
      sendAsync (InAppendEntries resp) (mkWorld p (trace w))
  end.

(** [func (p *Peer) sendSnapshotRecoveryRequest()] *)
Definition sendSnapshotRecoveryRequest (s : server) (w : World) : World :=
  let req := newSnapshotRecoveryRequest (name s) (snapshot s) in
  let w := emit (CallSnapshotRecovery (peer w) req) w in
  match SendSnapshotRecoveryRequest (transporter s) (peer w) req with
  | None => w
  | Some resp =>
      if SnapshotRecoveryResponse.Success resp then
        let w := with_peer (set_prevLogIndex (SnapshotRecoveryRequest.LastIndex req)) w in
        sendAsync (InSnapshotRecovery resp) w
      else w
  end.

(** [func (p *Peer) sendSnapshotRequest(req *SnapshotRequest)] *)
Definition sendSnapshotRequest (s : server) (req : SnapshotRequest.t)
    (w : World) : World :=
  let w := emit (CallSnapshot (peer w) req) w in
  match SendSnapshotRequest (transporter s) (peer w) req with
  | None => w
  | Some resp =>
      if SnapshotResponse.Success resp
      then sendSnapshotRecoveryRequest s w
      else w
  end.

(** [func (p *Peer) flush()] *)
Definition flush (s : server) (w : World) : World :=
  let prevLogIndex := getPrevLogIndex (peer w) in
  let term := currentTerm s in
  let '(entries, prevLogTerm) :=
    log_getEntriesAfter s prevLogIndex (maxLogEntriesPerRequest s) in
  match entries with
  | Some entries =>
      sendAppendEntriesRequest s
        (newAppendEntriesRequest term prevLogIndex prevLogTerm
           (log_CommitIndex s) (name s) entries) w
  | None =>
      sendSnapshotRequest s (newSnapshotRequest (name s) (snapshot s)) w
  end.

(** One outcome of the loop's [select], with the server as it stands
    when the case runs: a value received from the stop channel, or the
    ticker firing ([elapsed] is the wall-clock time the flush then
    takes). *)
Inductive Select :=
| StopChan (flush : bool)
| TickerFired (elapsed : Z).

(** The [for { select { ... } }] of [heartbeat]. The result says whether
    the loop has returned ([true]) or is still waiting in [select] at
    the end of the schedule ([false]). A nil ticker is never ready: its
    case is skipped. *)
Fixpoint heartbeat_loop (sched : list (server * Select)) (w : World)
    : World * bool :=
  match sched with
  | [] => (w, false)
  | (s, StopChan fl) :: _ =>
      if fl then (flush s w, true) else (w, true)
  | (s, TickerFired elapsed) :: rest =>
      match heartbeatTicker (peer w) with
      | NilTicker => heartbeat_loop rest w
      | Every _ =>
          let w := flush s w in
          let w := DispatchEvent
                     (newEvent HeartbeatEventType (DurationSource elapsed)) w in
          heartbeat_loop rest w
      end
  end.

(** [func (p *Peer) heartbeat(c chan bool)], after the rendezvous on
    [c]. *)
Definition heartbeat (sched : list (server * Select)) (w : World)
    : World * bool :=
  let w := with_peer
             (fun p => set_heartbeatTicker (time_Tick (heartbeatInterval p)) p) w in
  heartbeat_loop sched w.

(** [func (p *Peer) sendVoteRequest(req *RequestVoteRequest,
    c chan *RequestVoteResponse)]: the channel is the list of the
    responses delivered to it, oldest first. *)
Definition sendVoteRequest (s : server) (req : RequestVoteRequest.t)
    (c : list RequestVoteResponse.t) (w : World)
    : World * list RequestVoteResponse.t :=
  let req := RequestVoteRequest.set_peer (peer w) req in
  let w := emit (CallVote (peer w) req) w in
  match SendVoteRequest (transporter s) (peer w) req with
  | Some resp =>
      let resp := RequestVoteResponse.set_peer (peer w) resp in
      (w, c ++ [resp])
  | None => (w, c)
  end.

End Peer.

(** ** Vocabulary of the properties *)

(** The peer the reconciliation starts from: the one the transport was
    called with, its back-off reset when it was backing off. *)
Definition after_response (p : Peer) : Peer :=
  if negb (failedHeartbeats p =? 0) then resetHeartbeatInterval p else p.

Definition is_append_call (e : Effect) : bool :=
  match e with CallAppendEntries _ _ => true | _ => false end.

Definition is_snapshot_call (e : Effect) : bool :=
  match e with
  | CallSnapshot _ _ | CallSnapshotRecovery _ _ => true
  | _ => false
  end.

Definition is_sent_async (e : Effect) : bool :=
  match e with SentAsync _ => true | _ => false end.

Definition is_dispatched (e : Effect) : bool :=
  match e with Dispatched _ => true | _ => false end.

(** A flush attempt opens with exactly one of these two calls. *)
Definition opens_flush (e : Effect) : bool :=
  match e with
  | CallAppendEntries _ _ | CallSnapshot _ _ => true
  | _ => false
  end.

Definition flush_attempts (t : list Effect) : nat :=
  List.length (filter opens_flush t).

(** A run of flushes, one per state of the server, oldest first. *)
Definition flushes (cvt : Z -> Z) (ss : list server) (w : World) : World :=
  fold_left (fun w s => flush cvt s w) ss w.

(** A server whose log always has a batch to send and whose peer never
    answers an append-entries request. *)
Definition append_unanswered (s : server) : Prop :=
  (forall i n, fst (log_getEntriesAfter s i n) <> None)
  /\ (forall p req, SendAppendEntriesRequest (transporter s) p req = None).

(** Whether the transport answers the request a flush opens with. *)
Definition response_received (s : server) (w : World) : bool :=
  let i := prevLogIndex (peer w) in
  match log_getEntriesAfter s i (maxLogEntriesPerRequest s) with
  | (Some entries, prevLogTerm) =>
      match SendAppendEntriesRequest (transporter s) (peer w)
              (newAppendEntriesRequest (currentTerm s) i prevLogTerm
                 (log_CommitIndex s) (name s) entries) with
      | Some _ => true
      | None => false
      end
  | (None, _) =>
      match SendSnapshotRequest (transporter s) (peer w)
              (newSnapshotRequest (name s) (snapshot s)) with
      | Some _ => true
      | None => false
      end
  end.

Definition takes_append_path (s : server) (w : World) : bool :=
  match fst (log_getEntriesAfter s (prevLogIndex (peer w))
               (maxLogEntriesPerRequest s)) with
  | Some _ => true
  | None => false
  end.

Definition is_tick (c : server * Select) : bool :=
  match snd c with TickerFired _ => true | StopChan _ => false end.

(** ** Concrete peers, servers and transports *)

Definition constant_transport
    (ae : option AppendEntriesResponse.t) (offer : option SnapshotResponse.t)
    (recovery : option SnapshotRecoveryResponse.t)
    (vote : option RequestVoteResponse.t) : Transporter :=
  mkTransporter (fun _ _ => ae) (fun _ _ => offer) (fun _ _ => recovery)
    (fun _ _ => vote).

Definition silent_transport : Transporter :=
  constant_transport None None None None.

Definition ex_overflow : Z -> Z := fun _ => min_int64.

(** Entries 11 to 15 of term 3. *)
Definition ex_entries : list LogEntry.t :=
  [LogEntry.mk 11 2 "a"; LogEntry.mk 12 2 "b"; LogEntry.mk 13 3 "c";
   LogEntry.mk 14 3 "d"; LogEntry.mk 15 3 "e"].

Definition ex_snapshot : Snapshot.t := Snapshot.mk 20 3 "state".

(** A leader of term 3 whose log hands out [ex_entries]. *)
Definition ex_server (t : Transporter) : server :=
  mkServer "node1" 3 (fun _ _ => (Some ex_entries, 2)) 10 5 ex_snapshot t.

(** The same leader once its log has been compacted up to index 20. *)
Definition ex_compacted (t : Transporter) : server :=
  mkServer "node1" 3 (fun _ _ => (None, 0)) 20 5 ex_snapshot t.

(** A peer matched at index 10, with a heartbeat of 50ms, after [fh]
    failed heartbeats. *)
Definition ex_peer (fh : Z) : Peer :=
  mkPeer "node2" "http://node2:4001" 10 50000000 (Every 50000000) fh.

Definition ex_world (fh : Z) : World := mkWorld (ex_peer fh) [].

Definition ex_request : AppendEntriesRequest.t :=
  newAppendEntriesRequest 3 10 2 10 "node1" ex_entries.

Definition ae_success : AppendEntriesResponse.t :=
  AppendEntriesResponse.mk 3 15 10 true "" false.

(** A rejection with conflict index 3 from a peer that committed up to 2. *)
Definition ae_conflict : AppendEntriesResponse.t :=
  AppendEntriesResponse.mk 3 3 2 false "" false.

(** A rejection from a peer that already committed up to 12. *)
Definition ae_lost_ack : AppendEntriesResponse.t :=
  AppendEntriesResponse.mk 3 15 12 false "" false.

(** A rejection from a peer that has seen term 4. *)
Definition ae_newer_term : AppendEntriesResponse.t :=
  AppendEntriesResponse.mk 4 15 12 false "" false.

(** The leader in front of a peer that accepts, rejects on a conflict,
    has committed more than the leader knows, has seen a later term, or
    does not answer. *)
Definition ex_accepting : server :=
  ex_server (constant_transport (Some ae_success) None None None).
Definition ex_conflicting : server :=
  ex_server (constant_transport (Some ae_conflict) None None None).
Definition ex_lost_ack : server :=
  ex_server (constant_transport (Some ae_lost_ack) None None None).
Definition ex_newer_term : server :=
  ex_server (constant_transport (Some ae_newer_term) None None None).
Definition ex_unreachable : server := ex_server silent_transport.

(** The compacted leader in front of a peer that installs the snapshot,
    and in front of one that does not answer. *)
Definition ex_recovery : SnapshotRecoveryResponse.t :=
  SnapshotRecoveryResponse.mk 3 true 20.
Definition ex_installing : server :=
  ex_compacted
    (constant_transport None (Some (SnapshotResponse.mk true))
       (Some ex_recovery) None).
Definition ex_compacted_unreachable : server := ex_compacted silent_transport.

Definition ex_vote_request : RequestVoteRequest.t :=
  RequestVoteRequest.mk None 4 15 3 "node1".

Definition ex_vote : RequestVoteResponse.t :=
  RequestVoteResponse.mk None 4 true.

(** ** The constructor, and more vocabulary *)

(** [func newPeer(server *server, name string, connectionString string,
    heartbeatInterval time.Duration) *Peer]: the fields left out of the
    literal take their zero value (matched index 0, no ticker, no failed
    heartbeat). *)
Definition newPeer (name connectionString : string) (heartbeatInterval : Z) : Peer :=
  mkPeer name connectionString 0 heartbeatInterval NilTicker 0.

Definition is_heartbeat_event (e : Effect) : bool :=
  match e with
  | Dispatched (newEvent HeartbeatEventType _) => true
  | _ => false
  end.

Definition is_recovery_call (e : Effect) : bool :=
  match e with CallSnapshotRecovery _ _ => true | _ => false end.

Definition occurrences (f : Effect -> bool) (t : list Effect) : nat :=
  List.length (filter f t).

(** The first value the stop channel delivers in a schedule, if any. *)
Fixpoint stop_signal (sched : list (server * Select)) : option bool :=
  match sched with
  | [] => None
  | (_, StopChan fl) :: _ => Some fl
  | (_, TickerFired _) :: rest => stop_signal rest
  end.


(** A leader in front of a follower of its own term that has committed up
    to [c] and rejects what it is sent, reporting a conflict no lower
    than [c]. *)
Definition rejects_with_commit (c : Z) (s : server) : Prop :=
  (forall i n, fst (log_getEntriesAfter s i n) <> None)
  /\ (forall p req,
        exists resp,
          SendAppendEntriesRequest (transporter s) p req = Some resp
          /\ AppendEntriesResponse.Success resp = false
          /\ AppendEntriesResponse.Term resp = currentTerm s
          /\ AppendEntriesResponse.CommitIndex resp = c
          /\ c <= AppendEntriesResponse.Index resp).

(** A rejection from a follower of term 3 that committed up to 7 and
    reports its conflict there. *)
Definition ae_behind : AppendEntriesResponse.t :=
  AppendEntriesResponse.mk 3 7 7 false "" false.
Definition ex_behind : server :=
  ex_server (constant_transport (Some ae_behind) None None None).

(** An empty batch, as a heartbeat to a peer that is up to date. *)
Definition ex_heartbeat_request : AppendEntriesRequest.t :=
  newAppendEntriesRequest 3 10 2 10 "node1" [].

(** Three ticks while the peer cannot be reached. *)
Definition ex_lost_ticks : list (server * Select) :=
  [(ex_unreachable, TickerFired 1000); (ex_unreachable, TickerFired 1000);
   (ex_unreachable, TickerFired 1000)].

(** The compacted leader in front of a peer that declines the offer. *)
Definition ex_declining : server :=
  ex_compacted
    (constant_transport None (Some (SnapshotResponse.mk false))
       (Some ex_recovery) None).

(** ** Properties *)

Section Properties.

Variable cvt : Z -> Z.

Lemma wrap_uint64_pred (x : Z) :
  uint64_range x -> 0 < x -> wrap_uint64 (x - 1) = x - 1.
Proof.
  unfold uint64_range, wrap_uint64. intros Hx Hpos.
  apply Z.mod_small. lia.
Qed.

Lemma nth_error_last_snoc {A} (init : list A) (x : A) :
  nth_error (init ++ [x]) (List.length (init ++ [x]) - 1) = Some x.
Proof.
  rewrite length_app. simpl.
  replace (List.length init + 1 - 1)%nat with (List.length init) by lia.
  rewrite nth_error_app2 by lia.
  now rewrite Nat.sub_diag.
Qed.

Lemma length_snoc_pos {A} (init : list A) (x : A) :
  (0 <? List.length (init ++ [x]))%nat = true.
Proof. apply Nat.ltb_lt. rewrite length_app. simpl. lia. Qed.

(** C1. An append-entries exchange answered with success, for a request
    that carried entries ([init ++ [last]], so N > 0): the matched
    index becomes exactly the index of [last], the last entry sent; and
    when the term of [last] is the leader's current term, the response
    handed to the server carries the append marker set to true. *)
Theorem append_success_advances_prevLogIndex
    (s : server) (req : AppendEntriesRequest.t) (w : World)
    (resp : AppendEntriesResponse.t) (init : list LogEntry.t) (last : LogEntry.t) :
  SendAppendEntriesRequest (transporter s) (peer w) req = Some resp ->
  AppendEntriesResponse.Success resp = true ->
  AppendEntriesRequest.Entries req = init ++ [last] ->
  let w' := sendAppendEntriesRequest cvt s req w in
  prevLogIndex (peer w') = LogEntry.GetIndex last
  /\ (LogEntry.GetTerm last = currentTerm s ->
      exists r,
        trace w' = trace w ++ [CallAppendEntries (peer w) req;
                               SentAsync (InAppendEntries r)]
        /\ AppendEntriesResponse.append r = true
        /\ r = AppendEntriesResponse.set_peer (Name (peer w))
                 (AppendEntriesResponse.set_append true resp)).
Proof.
  intros Hresp Hok Hentries w'. subst w'.
  unfold sendAppendEntriesRequest. cbn [emit peer trace].
  rewrite Hresp, Hok, Hentries, length_snoc_pos, nth_error_last_snoc.
  split.
  - destruct (negb _); destruct (_ =? _); reflexivity.
  - intros Hterm. apply Z.eqb_eq in Hterm. rewrite Hterm.
    eexists. split; [| split; [| reflexivity]].
    + destruct (negb _); cbn; rewrite <- app_assoc; reflexivity.
    + reflexivity.
Qed.

(** What a failure response does to the matched index, branch by
    branch of the [else] of [resp.Success()]. *)
Lemma append_failure_prevLogIndex
    (s : server) (req : AppendEntriesRequest.t) (w : World)
    (resp : AppendEntriesResponse.t) :
  SendAppendEntriesRequest (transporter s) (peer w) req = Some resp ->
  AppendEntriesResponse.Success resp = false ->
  prevLogIndex (peer (sendAppendEntriesRequest cvt s req w)) =
    let i := prevLogIndex (peer w) in
    if AppendEntriesResponse.Term resp >? currentTerm s then i
    else if (AppendEntriesResponse.Term resp =? AppendEntriesRequest.Term req)
            && (AppendEntriesResponse.CommitIndex resp >=? i)
    then AppendEntriesResponse.CommitIndex resp
    else if i >? 0 then
      if wrap_uint64 (i - 1) >? AppendEntriesResponse.Index resp
      then AppendEntriesResponse.Index resp
      else wrap_uint64 (i - 1)
    else i.
Proof.
  intros Hresp Hfail.
  unfold sendAppendEntriesRequest. cbn [emit peer trace].
  rewrite Hresp, Hfail.
  assert (Hreset : prevLogIndex (resetHeartbeatInterval (peer w))
                   = prevLogIndex (peer w)) by reflexivity.
  cbv zeta.
  destruct (negb _);
    cbn [emit with_peer peer trace prevLogIndex set_prevLogIndex];
    rewrite ?Hreset;
    (destruct (_ >? currentTerm s); [reflexivity |]);
    (destruct (_ && _); [reflexivity |]);
    (destruct (prevLogIndex (peer w) >? 0); [| reflexivity]);
    destruct (_ >? _); reflexivity.
Qed.

(** C2. A failure response whose term is not above the local term and
    whose commit index is below the matched index: a matched index
    above 0 is decremented by exactly one and then lowered to the
    response's conflict index when that is smaller; the matched index
    never goes below zero. *)
Theorem append_failure_decrements_prevLogIndex
    (s : server) (req : AppendEntriesRequest.t) (w : World)
    (resp : AppendEntriesResponse.t) :
  uint64_range (prevLogIndex (peer w)) ->
  uint64_range (AppendEntriesResponse.Index resp) ->
  SendAppendEntriesRequest (transporter s) (peer w) req = Some resp ->
  AppendEntriesResponse.Success resp = false ->
  AppendEntriesResponse.Term resp <= currentTerm s ->
  AppendEntriesResponse.CommitIndex resp < prevLogIndex (peer w) ->
  let i := prevLogIndex (peer w) in
  let i' := prevLogIndex (peer (sendAppendEntriesRequest cvt s req w)) in
  (0 < i -> i' = Z.min (i - 1) (AppendEntriesResponse.Index resp) /\ i' < i)
  /\ (i = 0 -> i' = 0)
  /\ 0 <= i'.
Proof.
  intros Hi Hidx Hresp Hfail Hterm Hcommit i i'. subst i'.
  rewrite (append_failure_prevLogIndex s req w resp Hresp Hfail).
  fold i in Hi, Hcommit |- *. cbv zeta.
  destruct (Z.gtb_spec (AppendEntriesResponse.Term resp) (currentTerm s));
    [lia |].
  destruct (Z.geb_spec (AppendEntriesResponse.CommitIndex resp) i); [lia |].
  rewrite andb_false_r.
  destruct (Z.gtb_spec i 0) as [Hpos | Hzero].
  - rewrite (wrap_uint64_pred i Hi Hpos).
    unfold uint64_range in *.
    destruct (Z.gtb_spec (i - 1) (AppendEntriesResponse.Index resp)); lia.
  - unfold uint64_range in *. lia.
Qed.

(** The two ways out of [flush]. *)
Lemma flush_append_path (s : server) (w : World)
    (entries : list LogEntry.t) (prevLogTerm : Z) :
  log_getEntriesAfter s (prevLogIndex (peer w)) (maxLogEntriesPerRequest s)
    = (Some entries, prevLogTerm) ->
  flush cvt s w =
    sendAppendEntriesRequest cvt s
      (newAppendEntriesRequest (currentTerm s) (prevLogIndex (peer w))
         prevLogTerm (log_CommitIndex s) (name s) entries) w.
Proof. intros H. unfold flush, getPrevLogIndex. now rewrite H. Qed.

Lemma flush_snapshot_path (s : server) (w : World) (prevLogTerm : Z) :
  log_getEntriesAfter s (prevLogIndex (peer w)) (maxLogEntriesPerRequest s)
    = (None, prevLogTerm) ->
  flush cvt s w =
    sendSnapshotRequest s (newSnapshotRequest (name s) (snapshot s)) w.
Proof. intros H. unfold flush, getPrevLogIndex. now rewrite H. Qed.

(** The second branch of the failure case, for a request whose term is
    not above the server's (as every request [flush] builds). *)
Lemma append_failure_commit_recovery
    (s : server) (req : AppendEntriesRequest.t) (w : World)
    (resp : AppendEntriesResponse.t) :
  SendAppendEntriesRequest (transporter s) (peer w) req = Some resp ->
  AppendEntriesResponse.Success resp = false ->
  AppendEntriesRequest.Term req <= currentTerm s ->
  AppendEntriesResponse.Term resp = AppendEntriesRequest.Term req ->
  prevLogIndex (peer w) <= AppendEntriesResponse.CommitIndex resp ->
  prevLogIndex (peer (sendAppendEntriesRequest cvt s req w))
    = AppendEntriesResponse.CommitIndex resp.
Proof.
  intros Hresp Hfail Hreq Hterm Hcommit.
  rewrite (append_failure_prevLogIndex s req w resp Hresp Hfail). cbv zeta.
  destruct (Z.gtb_spec (AppendEntriesResponse.Term resp) (currentTerm s));
    [lia |].
  destruct (Z.eqb_spec (AppendEntriesResponse.Term resp)
              (AppendEntriesRequest.Term req)); [| contradiction].
  destruct (Z.geb_spec (AppendEntriesResponse.CommitIndex resp)
              (prevLogIndex (peer w))); [reflexivity | lia].
Qed.

(** The first branch: a response from a later term. *)
Lemma append_failure_newer_term
    (s : server) (req : AppendEntriesRequest.t) (w : World)
    (resp : AppendEntriesResponse.t) :
  SendAppendEntriesRequest (transporter s) (peer w) req = Some resp ->
  AppendEntriesResponse.Success resp = false ->
  currentTerm s < AppendEntriesResponse.Term resp ->
  prevLogIndex (peer (sendAppendEntriesRequest cvt s req w))
    = prevLogIndex (peer w).
Proof.
  intros Hresp Hfail Hterm.
  rewrite (append_failure_prevLogIndex s req w resp Hresp Hfail). cbv zeta.
  destruct (Z.gtb_spec (AppendEntriesResponse.Term resp) (currentTerm s));
    [reflexivity | lia].
Qed.

(** C3. A failure response to the request [flush] sent: when its term
    equals the request's term and its commit index is at least the
    matched index, the matched index is set to that commit index, with
    no decrement; when its term is above the local term, the matched
    index is not modified. *)
Theorem append_failure_recovers_or_keeps_prevLogIndex
    (s : server) (w : World) (entries : list LogEntry.t) (prevLogTerm : Z)
    (resp : AppendEntriesResponse.t) :
  let i := prevLogIndex (peer w) in
  let req := newAppendEntriesRequest (currentTerm s) i prevLogTerm
               (log_CommitIndex s) (name s) entries in
  log_getEntriesAfter s i (maxLogEntriesPerRequest s)
    = (Some entries, prevLogTerm) ->
  SendAppendEntriesRequest (transporter s) (peer w) req = Some resp ->
  AppendEntriesResponse.Success resp = false ->
  let i' := prevLogIndex (peer (flush cvt s w)) in
  (AppendEntriesResponse.Term resp = AppendEntriesRequest.Term req ->
   i <= AppendEntriesResponse.CommitIndex resp ->
   i' = AppendEntriesResponse.CommitIndex resp)
  /\ (currentTerm s < AppendEntriesResponse.Term resp -> i' = i).
Proof.
  intros i req Hlog Hresp Hfail i'. subst i'.
  rewrite (flush_append_path s w entries prevLogTerm Hlog).
  fold i. fold req. split.
  - intros Hterm Hcommit.
    apply append_failure_commit_recovery; auto. cbn. lia.
  - intros Hterm. now apply (append_failure_newer_term s req w resp).
Qed.

(** *** Effects of one call *)

Lemma sendAppendEntriesRequest_trace
    (s : server) (req : AppendEntriesRequest.t) (w : World) :
  exists e,
    trace (sendAppendEntriesRequest cvt s req w)
      = trace w ++ [CallAppendEntries (peer w) req; e]
    /\ match SendAppendEntriesRequest (transporter s) (peer w) req with
       | None =>
           e = Dispatched (newEvent HeartbeatIntervalEventType
                             (PeerSource (backoffHeartbeat cvt (peer w))))
       | Some resp => is_sent_async e = true
       end.
Proof.
  unfold sendAppendEntriesRequest. cbn [emit peer trace].
  destruct (SendAppendEntriesRequest _ _ _) as [resp |].
  - cbv zeta.
    match goal with
    | |- context [let '(_, _) := ?b in _] => destruct b as [p r]
    end.
    exists (SentAsync (InAppendEntries (AppendEntriesResponse.set_peer (Name p) r))).
    split; [| reflexivity].
    destruct (negb _); cbn; rewrite <- app_assoc; reflexivity.
  - eexists. split; [cbn; rewrite <- app_assoc; reflexivity | reflexivity].
Qed.

Lemma sendSnapshotRecoveryRequest_cases (s : server) (w : World) :
  let req := newSnapshotRecoveryRequest (name s) (snapshot s) in
  sendSnapshotRecoveryRequest s w =
    match SendSnapshotRecoveryRequest (transporter s) (peer w) req with
    | Some resp =>
        if SnapshotRecoveryResponse.Success resp
        then mkWorld (set_prevLogIndex (Snapshot.LastIndex (snapshot s)) (peer w))
               (trace w ++ [CallSnapshotRecovery (peer w) req;
                            SentAsync (InSnapshotRecovery resp)])
        else mkWorld (peer w) (trace w ++ [CallSnapshotRecovery (peer w) req])
    | None => mkWorld (peer w) (trace w ++ [CallSnapshotRecovery (peer w) req])
    end.
Proof.
  unfold sendSnapshotRecoveryRequest. cbn [emit peer trace].
  destruct (SendSnapshotRecoveryRequest _ _ _) as [resp |]; [| reflexivity].
  destruct (SnapshotRecoveryResponse.Success resp); [| reflexivity].
  unfold sendAsync, emit, with_peer. cbn [peer trace].
  now rewrite <- app_assoc.
Qed.

Lemma sendSnapshotRequest_cases (s : server) (req : SnapshotRequest.t) (w : World) :
  sendSnapshotRequest s req w =
    let w1 := mkWorld (peer w) (trace w ++ [CallSnapshot (peer w) req]) in
    match SendSnapshotRequest (transporter s) (peer w) req with
    | Some resp =>
        if SnapshotResponse.Success resp
        then sendSnapshotRecoveryRequest s w1
        else w1
    | None => w1
    end.
Proof. reflexivity. Qed.

(** The snapshot path performs transport calls and at most one hand-over
    to the server: it never dispatches an event and never sends an
    append-entries request. *)
Lemma sendSnapshotRequest_trace (s : server) (req : SnapshotRequest.t) (w : World) :
  exists rest,
    trace (sendSnapshotRequest s req w)
      = trace w ++ CallSnapshot (peer w) req :: rest
    /\ Forall (fun e => is_append_call e = false /\ is_dispatched e = false) rest
    /\ flush_attempts rest = 0%nat.
Proof.
  rewrite sendSnapshotRequest_cases. cbv zeta.
  destruct (SendSnapshotRequest _ _ _) as [resp |].
  2: { exists []. cbn. auto. }
  destruct (SnapshotResponse.Success resp).
  2: { exists []. cbn. auto. }
  rewrite sendSnapshotRecoveryRequest_cases. cbv zeta. cbn [peer trace].
  destruct (SendSnapshotRecoveryRequest _ _ _) as [rr |].
  2: { eexists. cbn [trace]. rewrite <- app_assoc. split; [reflexivity |].
       split; [repeat constructor | reflexivity]. }
  destruct (SnapshotRecoveryResponse.Success rr);
    eexists; cbn [trace]; rewrite <- app_assoc;
    (split; [reflexivity | split; [repeat constructor | reflexivity]]).
Qed.

(** C4. When the log has no entries to give after the matched index
    (a nil batch), [flush] issues a snapshot offer and no append-entries
    request; when it has a batch, the empty one included, [flush] sends
    the append-entries request built from the term, the matched index,
    its term, the leader's commit index, the leader's name and the
    batch, and no snapshot request. *)
Theorem flush_append_or_snapshot (s : server) (w : World) :
  let i := prevLogIndex (peer w) in
  match log_getEntriesAfter s i (maxLogEntriesPerRequest s) with
  | (None, _) =>
      exists rest,
        trace (flush cvt s w)
          = trace w
            ++ CallSnapshot (peer w) (newSnapshotRequest (name s) (snapshot s))
               :: rest
        /\ Forall (fun e => is_append_call e = false) rest
  | (Some entries, prevLogTerm) =>
      exists rest,
        trace (flush cvt s w)
          = trace w
            ++ CallAppendEntries (peer w)
                 (AppendEntriesRequest.mk (currentTerm s) i prevLogTerm
                    (log_CommitIndex s) (name s) entries)
               :: rest
        /\ Forall (fun e => is_snapshot_call e = false) rest
  end.
Proof.
  intros i.
  destruct (log_getEntriesAfter s i (maxLogEntriesPerRequest s))
    as [[entries |] prevLogTerm] eqn:Hlog.
  - rewrite (flush_append_path s w entries prevLogTerm Hlog).
    destruct (sendAppendEntriesRequest_trace s
                (newAppendEntriesRequest (currentTerm s) i prevLogTerm
                   (log_CommitIndex s) (name s) entries) w)
      as [e [Ht He]].
    exists [e]. split; [exact Ht |].
    constructor; [| constructor].
    destruct (SendAppendEntriesRequest _ _ _); [| now subst e].
    now destruct e.
  - rewrite (flush_snapshot_path s w prevLogTerm Hlog).
    destruct (sendSnapshotRequest_trace s
                (newSnapshotRequest (name s) (snapshot s)) w)
      as [rest [Ht [Hrest _]]].
    exists rest. split; [exact Ht |].
    eapply Forall_impl; [| exact Hrest]. now intros e [He _].
Qed.

(** C5. The second snapshot phase, reached when the offer [req] was
    accepted. A recovery response that indicates success sets the
    matched index to the snapshot's last included index and is handed
    to the server's inbound channel; a recovery response that rejects,
    or no recovery response, leaves the peer as it was and hands
    nothing over. *)
Theorem snapshot_recovery_outcome
    (s : server) (req : SnapshotRequest.t) (w : World)
    (offer : SnapshotResponse.t) :
  SendSnapshotRequest (transporter s) (peer w) req = Some offer ->
  SnapshotResponse.Success offer = true ->
  let rreq := newSnapshotRecoveryRequest (name s) (snapshot s) in
  let calls := [CallSnapshot (peer w) req; CallSnapshotRecovery (peer w) rreq] in
  let w' := sendSnapshotRequest s req w in
  match SendSnapshotRecoveryRequest (transporter s) (peer w) rreq with
  | Some resp =>
      if SnapshotRecoveryResponse.Success resp then
        prevLogIndex (peer w') = Snapshot.LastIndex (snapshot s)
        /\ trace w' = trace w ++ calls ++ [SentAsync (InSnapshotRecovery resp)]
      else
        peer w' = peer w /\ trace w' = trace w ++ calls
  | None =>
      peer w' = peer w /\ trace w' = trace w ++ calls
  end.
Proof.
  intros Hoffer Haccept rreq calls w'. subst w' calls.
  rewrite sendSnapshotRequest_cases. cbv zeta.
  rewrite Hoffer, Haccept, sendSnapshotRecoveryRequest_cases.
  cbv zeta. cbn [peer trace]. fold rreq.
  destruct (SendSnapshotRecoveryRequest _ _ _) as [resp |];
    [destruct (SnapshotRecoveryResponse.Success resp) |];
    cbn [peer trace]; rewrite <- app_assoc; split; reflexivity.
Qed.

Lemma sendVoteRequest_peer
    (s : server) (req : RequestVoteRequest.t)
    (c : list RequestVoteResponse.t) (w : World) :
  peer (fst (sendVoteRequest s req c w)) = peer w.
Proof.
  unfold sendVoteRequest. cbn [emit peer trace].
  now destruct (SendVoteRequest _ _ _).
Qed.

(** C9. [sendVoteRequest]: when the transport answers, the peer is
    attached to the response and the response is delivered to the
    results channel; when it does not, nothing is delivered. The peer
    itself is not touched. *)
Theorem sendVoteRequest_delivery
    (s : server) (req : RequestVoteRequest.t)
    (c : list RequestVoteResponse.t) (w : World) :
  let sent := RequestVoteRequest.set_peer (peer w) req in
  let w' := fst (sendVoteRequest s req c w) in
  let c' := snd (sendVoteRequest s req c w) in
  peer w' = peer w
  /\ trace w' = trace w ++ [CallVote (peer w) sent]
  /\ match SendVoteRequest (transporter s) (peer w) sent with
     | Some resp =>
         c' = c ++ [RequestVoteResponse.set_peer (peer w) resp]
         /\ RequestVoteResponse.peer (RequestVoteResponse.set_peer (peer w) resp)
            = Some (peer w)
     | None => c' = c
     end.
Proof.
  cbv zeta. unfold sendVoteRequest. cbn [emit peer trace].
  destruct (SendVoteRequest _ _ _); cbn; auto.
Qed.

(** The snapshot path, whatever the transport answers, leaves the
    back-off state alone. *)
Lemma sendSnapshotRequest_keeps_backoff
    (s : server) (req : SnapshotRequest.t) (w : World) :
  let w' := sendSnapshotRequest s req w in
  failedHeartbeats (peer w') = failedHeartbeats (peer w)
  /\ heartbeatTicker (peer w') = heartbeatTicker (peer w)
  /\ heartbeatInterval (peer w') = heartbeatInterval (peer w).
Proof.
  cbv zeta. rewrite sendSnapshotRequest_cases. cbv zeta.
  destruct (SendSnapshotRequest _ _ _) as [offer |]; [| now cbn].
  destruct (SnapshotResponse.Success offer); [| now cbn].
  rewrite sendSnapshotRecoveryRequest_cases. cbv zeta.
  destruct (SendSnapshotRecoveryRequest _ _ _) as [resp |]; [| now cbn].
  destruct (SnapshotRecoveryResponse.Success resp); now cbn.
Qed.

(** C10. A flush that takes the snapshot path and gets no response, to
    the offer or to the recovery request: the peer, its
    [failedHeartbeats] and its ticker among the rest, is as before, and
    what the flush did is transport calls only: no event is
    dispatched. *)
Theorem snapshot_failure_no_backoff (s : server) (w : World) (prevLogTerm : Z) :
  let req := newSnapshotRequest (name s) (snapshot s) in
  let rreq := newSnapshotRecoveryRequest (name s) (snapshot s) in
  log_getEntriesAfter s (prevLogIndex (peer w)) (maxLogEntriesPerRequest s)
    = (None, prevLogTerm) ->
  SendSnapshotRequest (transporter s) (peer w) req = None
  \/ (exists offer,
        SendSnapshotRequest (transporter s) (peer w) req = Some offer
        /\ SnapshotResponse.Success offer = true
        /\ SendSnapshotRecoveryRequest (transporter s) (peer w) rreq = None) ->
  let w' := flush cvt s w in
  failedHeartbeats (peer w') = failedHeartbeats (peer w)
  /\ heartbeatTicker (peer w') = heartbeatTicker (peer w)
  /\ peer w' = peer w
  /\ exists done,
       trace w' = trace w ++ done
       /\ Forall (fun e => is_snapshot_call e = true /\ is_dispatched e = false)
            done.
Proof.
  intros req rreq Hlog Hfail w'. subst w'.
  rewrite (flush_snapshot_path s w prevLogTerm Hlog). fold req.
  rewrite sendSnapshotRequest_cases. cbv zeta.
  destruct Hfail as [Hnone | [offer [Hoffer [Haccept Hnone]]]].
  - rewrite Hnone. cbn [peer trace]. repeat split.
    eexists. split; [reflexivity |]. repeat constructor.
  - rewrite Hoffer, Haccept, sendSnapshotRecoveryRequest_cases.
    cbv zeta. cbn [peer trace]. fold rreq. rewrite Hnone.
    cbn [peer trace]. repeat split.
    eexists. rewrite <- app_assoc. split; [reflexivity |]. repeat constructor.
Qed.

(** *** The heartbeat loop *)

Lemma flush_attempts_app (t u : list Effect) :
  flush_attempts (t ++ u) = (flush_attempts t + flush_attempts u)%nat.
Proof. unfold flush_attempts. now rewrite filter_app, length_app. Qed.

(** Every call of [flush] is one attempt. *)
Lemma flush_attempts_flush (s : server) (w : World) :
  flush_attempts (trace (flush cvt s w)) = S (flush_attempts (trace w)).
Proof.
  destruct (log_getEntriesAfter s (prevLogIndex (peer w))
              (maxLogEntriesPerRequest s)) as [[entries |] prevLogTerm] eqn:Hlog.
  - rewrite (flush_append_path s w entries prevLogTerm Hlog).
    match goal with
    | |- context [sendAppendEntriesRequest cvt s ?r w] =>
        destruct (sendAppendEntriesRequest_trace s r w) as [e [Ht He]]
    end.
    rewrite Ht, flush_attempts_app.
    assert (Hopen : opens_flush e = false).
    { destruct (SendAppendEntriesRequest _ _ _); [now destruct e | now subst e]. }
    unfold flush_attempts at 2. cbn [filter opens_flush]. rewrite Hopen.
    cbn. lia.
  - rewrite (flush_snapshot_path s w prevLogTerm Hlog).
    destruct (sendSnapshotRequest_trace s
                (newSnapshotRequest (name s) (snapshot s)) w)
      as [rest [Ht [_ Hrest]]].
    rewrite Ht, flush_attempts_app.
    change (CallSnapshot (peer w) (newSnapshotRequest (name s) (snapshot s)) :: rest)
      with ([CallSnapshot (peer w) (newSnapshotRequest (name s) (snapshot s))] ++ rest).
    rewrite flush_attempts_app, Hrest. cbn. lia.
Qed.

(** Ticks before a stop signal do not end the loop, and the stop signal
    is handled in the state they leave. *)
Lemma heartbeat_loop_stop
    (ticks : list (server * Select)) (s : server) (fl : bool)
    (rest : list (server * Select)) (w : World) :
  forallb is_tick ticks = true ->
  snd (heartbeat_loop cvt ticks w) = false
  /\ heartbeat_loop cvt (ticks ++ (s, StopChan fl) :: rest) w =
       let before := fst (heartbeat_loop cvt ticks w) in
       (if fl then flush cvt s before else before, true).
Proof.
  revert w. induction ticks as [| [s0 c] ticks IH]; intros w Hticks.
  - cbn. now destruct fl.
  - cbn in Hticks. apply andb_prop in Hticks. destruct Hticks as [Hc Hticks].
    destruct c as [b | elapsed]; [discriminate Hc |].
    cbn [heartbeat_loop app].
    destruct (heartbeatTicker (peer w)); now apply IH.
Qed.

(** C8. The heartbeat loop, after any number of ticks, receives a stop
    signal: with [flush = true] it makes exactly one more flush attempt
    and returns; with [flush = false] it returns at once, with no
    further attempt. Whatever is scheduled after the signal is never
    looked at. *)
Theorem heartbeat_stop_flushes_once_or_never
    (ticks : list (server * Select)) (s : server) (fl : bool)
    (rest : list (server * Select)) (w : World) :
  forallb is_tick ticks = true ->
  let before := fst (heartbeat cvt ticks w) in
  let after := fst (heartbeat cvt (ticks ++ (s, StopChan fl) :: rest) w) in
  snd (heartbeat cvt ticks w) = false
  /\ snd (heartbeat cvt (ticks ++ (s, StopChan fl) :: rest) w) = true
  /\ after = (if fl then flush cvt s before else before)
  /\ flush_attempts (trace after)
     = (flush_attempts (trace before) + (if fl then 1 else 0))%nat.
Proof.
  intros Hticks before after. subst before after. unfold heartbeat.
  match goal with
  | |- context [heartbeat_loop cvt ticks ?w0] =>
      destruct (heartbeat_loop_stop ticks s fl rest w0 Hticks) as [Hrun Hstop]
  end.
  rewrite Hstop. cbv zeta. cbn [fst snd].
  repeat split; auto.
  destruct fl; [rewrite flush_attempts_flush |]; lia.
Qed.

(** *** The back-off *)

Lemma float64_succ_exact (x : Z) :
  0 <= x < 2 ^ 53 -> float64_succ x = x + 1.
Proof.
  intros Hx. unfold float64_succ.
  destruct (Z.ltb_spec x (2 ^ 53)); lia.
Qed.

Lemma float64_succ_pos (x : Z) : 0 <= x -> 0 < float64_succ x.
Proof.
  intros Hx. unfold float64_succ.
  destruct (Z.ltb_spec x (2 ^ 53)); lia.
Qed.

Lemma wrap_int64_small (z : Z) : int64_range z -> wrap_int64 z = z.
Proof.
  unfold int64_range, min_int64, max_int64, wrap_int64. intros Hz.
  rewrite Z.mod_small; lia.
Qed.

Lemma duration_of_pow2_exact (e : Z) :
  0 <= e < 63 -> duration_of_pow2 cvt e = 2 ^ e.
Proof.
  intros He. unfold duration_of_pow2.
  destruct (Z.ltb_spec e 0); [lia |].
  destruct (Z.ltb_spec e 63); [reflexivity | lia].
Qed.

Lemma heartbeatDuration_exact (p : Peer) :
  0 <= failedHeartbeats p < 63 ->
  int64_range (heartbeatInterval p * 2 ^ failedHeartbeats p) ->
  heartbeatDuration cvt p = heartbeatInterval p * 2 ^ failedHeartbeats p.
Proof.
  intros Hfh Hrange. unfold heartbeatDuration.
  rewrite duration_of_pow2_exact by exact Hfh.
  now apply wrap_int64_small.
Qed.

(** An append-entries request left without response. *)
Lemma sendAppendEntriesRequest_no_response
    (s : server) (req : AppendEntriesRequest.t) (w : World) :
  SendAppendEntriesRequest (transporter s) (peer w) req = None ->
  sendAppendEntriesRequest cvt s req w =
    let p' := backoffHeartbeat cvt (peer w) in
    mkWorld p'
      (trace w ++ [CallAppendEntries (peer w) req;
                   Dispatched (newEvent HeartbeatIntervalEventType (PeerSource p'))]).
Proof.
  intros Hnone. unfold sendAppendEntriesRequest. cbn [emit peer trace].
  rewrite Hnone. unfold DispatchEvent, emit, with_peer. cbn [peer trace].
  now rewrite <- app_assoc.
Qed.

(** An append-entries request that got a response, whatever it says. *)
Lemma sendAppendEntriesRequest_response_backoff
    (s : server) (req : AppendEntriesRequest.t) (w : World)
    (resp : AppendEntriesResponse.t) :
  SendAppendEntriesRequest (transporter s) (peer w) req = Some resp ->
  let p' := peer (sendAppendEntriesRequest cvt s req w) in
  failedHeartbeats p' = 0
  /\ heartbeatInterval p' = heartbeatInterval (peer w)
  /\ heartbeatTicker p' = heartbeatTicker (after_response (peer w)).
Proof.
  intros Hresp. cbv zeta.
  unfold sendAppendEntriesRequest, after_response. cbn [emit peer trace].
  rewrite Hresp. cbv zeta.
  destruct (Z.eqb_spec (failedHeartbeats (peer w)) 0) as [Hz | Hnz];
    cbn [negb with_peer peer trace];
    repeat match goal with
      | |- context [if ?b then _ else _] => destruct b
      | |- context [match ?o with Some _ => _ | None => _ end] => destruct o
      end;
    cbn; auto.
Qed.

Lemma backoffHeartbeat_fields (p : Peer) :
  let p' := backoffHeartbeat cvt p in
  failedHeartbeats p' = float64_succ (failedHeartbeats p)
  /\ heartbeatInterval p' = heartbeatInterval p
  /\ prevLogIndex p' = prevLogIndex p
  /\ heartbeatTicker p' = time_Tick (heartbeatDuration cvt p').
Proof. cbv zeta. unfold backoffHeartbeat. cbn. auto. Qed.

(** One flush on the append path that gets no response. *)
Lemma flush_unanswered (s : server) (w : World)
    (entries : list LogEntry.t) (prevLogTerm : Z) :
  log_getEntriesAfter s (prevLogIndex (peer w)) (maxLogEntriesPerRequest s)
    = (Some entries, prevLogTerm) ->
  SendAppendEntriesRequest (transporter s) (peer w)
    (newAppendEntriesRequest (currentTerm s) (prevLogIndex (peer w)) prevLogTerm
       (log_CommitIndex s) (name s) entries) = None ->
  flush cvt s w =
    let p' := backoffHeartbeat cvt (peer w) in
    mkWorld p'
      (trace w
       ++ [CallAppendEntries (peer w)
             (newAppendEntriesRequest (currentTerm s) (prevLogIndex (peer w))
                prevLogTerm (log_CommitIndex s) (name s) entries);
           Dispatched (newEvent HeartbeatIntervalEventType (PeerSource p'))]).
Proof.
  intros Hlog Hnone.
  rewrite (flush_append_path s w entries prevLogTerm Hlog).
  now apply sendAppendEntriesRequest_no_response.
Qed.

Lemma flush_append_unanswered (s : server) (w : World) :
  append_unanswered s ->
  peer (flush cvt s w) = backoffHeartbeat cvt (peer w).
Proof.
  intros [Hlog Hnone].
  specialize (Hlog (prevLogIndex (peer w)) (maxLogEntriesPerRequest s)).
  destruct (log_getEntriesAfter s (prevLogIndex (peer w))
              (maxLogEntriesPerRequest s)) as [[entries |] prevLogTerm] eqn:E;
    [| now elim Hlog].
  now rewrite (flush_unanswered s w entries prevLogTerm E (Hnone _ _)).
Qed.

(** Consecutive unanswered flushes count up and touch nothing else of
    what the back-off reads. *)
Lemma flushes_unanswered (ss : list server) :
  Forall append_unanswered ss ->
  forall w : World,
    0 <= failedHeartbeats (peer w) ->
    failedHeartbeats (peer w) + Z.of_nat (List.length ss) <= 2 ^ 53 ->
    let p' := peer (flushes cvt ss w) in
    failedHeartbeats p' = failedHeartbeats (peer w) + Z.of_nat (List.length ss)
    /\ heartbeatInterval p' = heartbeatInterval (peer w)
    /\ prevLogIndex p' = prevLogIndex (peer w).
Proof.
  induction 1 as [| s ss Hs _ IH]; intros w Hpos Hbound.
  - cbn. split; [lia | auto].
  - cbn [flushes fold_left]. fold (flushes cvt ss (flush cvt s w)).
    rewrite length_cons, Nat2Z.inj_succ in Hbound |- *.
    pose proof (flush_append_unanswered s w Hs) as Hstep.
    destruct (backoffHeartbeat_fields (peer w)) as [Hfh [Hint [Hidx _]]].
    rewrite <- Hstep in Hfh, Hint, Hidx.
    rewrite float64_succ_exact in Hfh by lia.
    destruct (IH (flush cvt s w)) as [IHfh [IHint IHidx]]; [lia | lia |].
    cbv zeta. rewrite IHfh, IHint, IHidx, Hfh, Hint, Hidx.
    split; [lia | auto].
Qed.

(** C7, as the code has it. On the append-entries path:
    - a flush that gets no response increments [failedHeartbeats],
      leaves the matched index and the base interval alone, sets the
      ticker to the recomputed duration and dispatches the
      interval-changed event; as long as the new count [k] is below 63
      and [heartbeatInterval * 2^k] fits a 64-bit duration, that
      duration is [heartbeatInterval * 2^k];
    - after [k] consecutive such flushes from a count of 0 the duration
      is [heartbeatInterval * 2^k], under the same bound;
    - a flush that gets a response resets the count to 0 and the
      duration to the base interval. *)
Theorem backoff_doubles_within_int64 :
  (forall (s : server) (w : World) (entries : list LogEntry.t) (prevLogTerm : Z),
      let p := peer w in
      let req := newAppendEntriesRequest (currentTerm s) (prevLogIndex p)
                   prevLogTerm (log_CommitIndex s) (name s) entries in
      log_getEntriesAfter s (prevLogIndex p) (maxLogEntriesPerRequest s)
        = (Some entries, prevLogTerm) ->
      SendAppendEntriesRequest (transporter s) p req = None ->
      let p' := peer (flush cvt s w) in
      let k := failedHeartbeats p + 1 in
      prevLogIndex p' = prevLogIndex p
      /\ heartbeatInterval p' = heartbeatInterval p
      /\ failedHeartbeats p' = float64_succ (failedHeartbeats p)
      /\ heartbeatTicker p' = time_Tick (heartbeatDuration cvt p')
      /\ trace (flush cvt s w)
         = trace w ++ [CallAppendEntries p req;
                       Dispatched (newEvent HeartbeatIntervalEventType
                                     (PeerSource p'))]
      /\ (0 <= failedHeartbeats p -> k < 63 ->
          int64_range (heartbeatInterval p * 2 ^ k) ->
          failedHeartbeats p' = k
          /\ heartbeatDuration cvt p' = heartbeatInterval p * 2 ^ k
          /\ heartbeatTicker p' = time_Tick (heartbeatInterval p * 2 ^ k)))
  /\ (forall (ss : list server) (w : World),
        let k := Z.of_nat (List.length ss) in
        Forall append_unanswered ss ->
        failedHeartbeats (peer w) = 0 ->
        k < 63 ->
        int64_range (heartbeatInterval (peer w) * 2 ^ k) ->
        let p' := peer (flushes cvt ss w) in
        failedHeartbeats p' = k
        /\ heartbeatDuration cvt p' = heartbeatInterval (peer w) * 2 ^ k
        /\ prevLogIndex p' = prevLogIndex (peer w))
  /\ (forall (s : server) (w : World) (entries : list LogEntry.t) (prevLogTerm : Z)
             (resp : AppendEntriesResponse.t),
        let p := peer w in
        let req := newAppendEntriesRequest (currentTerm s) (prevLogIndex p)
                     prevLogTerm (log_CommitIndex s) (name s) entries in
        log_getEntriesAfter s (prevLogIndex p) (maxLogEntriesPerRequest s)
          = (Some entries, prevLogTerm) ->
        SendAppendEntriesRequest (transporter s) p req = Some resp ->
        let p' := peer (flush cvt s w) in
        failedHeartbeats p' = 0
        /\ heartbeatInterval p' = heartbeatInterval p
        /\ (failedHeartbeats p <> 0 ->
            heartbeatTicker p' = time_Tick (heartbeatInterval p))
        /\ (int64_range (heartbeatInterval p) ->
            heartbeatDuration cvt p' = heartbeatInterval p)).
Proof.
  split; [| split].
  - intros s w entries prevLogTerm p req Hlog Hnone p' k. subst p'.
    rewrite (flush_unanswered s w entries prevLogTerm Hlog Hnone).
    cbv zeta. cbn [peer trace]. fold p. fold req.
    destruct (backoffHeartbeat_fields p) as [Hfh [Hint [Hidx Htick]]].
    repeat split; auto.
    + rewrite Hfh. now apply float64_succ_exact; lia.
    + rewrite heartbeatDuration_exact; rewrite Hfh, ?Hint,
        float64_succ_exact by lia; fold k; auto; lia.
    + rewrite Htick, heartbeatDuration_exact; rewrite Hfh, ?Hint,
        float64_succ_exact by lia; fold k; auto; lia.
  - intros ss w k Hss Hzero Hk Hrange p'. subst p'.
    destruct (flushes_unanswered ss Hss w) as [Hfh [Hint Hidx]];
      [lia | fold k; lia |].
    rewrite Hzero, Z.add_0_l in Hfh. fold k in Hfh.
    repeat split; auto.
    rewrite heartbeatDuration_exact; rewrite Hfh, ?Hint; auto; lia.
  - intros s w entries prevLogTerm resp p req Hlog Hresp p'. subst p'.
    rewrite (flush_append_path s w entries prevLogTerm Hlog). fold p. fold req.
    destruct (sendAppendEntriesRequest_response_backoff s req w resp Hresp)
      as [Hfh [Hint Htick]].
    repeat split; auto.
    + intros Hnz. rewrite Htick. unfold after_response.
      destruct (Z.eqb_spec (failedHeartbeats (peer w)) 0); [contradiction |].
      reflexivity.
    + intros Hrange.
      rewrite heartbeatDuration_exact; rewrite Hfh, ?Hint, ?Z.pow_0_r, ?Z.mul_1_r;
        auto; lia.
Qed.

(** C6, as the code has it. [failedHeartbeats] is reset to 0 by a flush
    exactly when the flush takes the append-entries path and its
    request gets a response, whatever the response says. In no other
    case is it reset: an append-entries request left without response
    increments it, the snapshot path leaves it as it is whether the
    peer answers or not, and so do [sendVoteRequest] and the setters. *)
Theorem failedHeartbeats_reset_by_append_response_only (s : server) (w : World) :
  let p := peer w in
  let p' := peer (flush cvt s w) in
  match log_getEntriesAfter s (prevLogIndex p) (maxLogEntriesPerRequest s) with
  | (Some entries, prevLogTerm) =>
      match SendAppendEntriesRequest (transporter s) p
              (newAppendEntriesRequest (currentTerm s) (prevLogIndex p)
                 prevLogTerm (log_CommitIndex s) (name s) entries) with
      | Some _ => failedHeartbeats p' = 0
      | None =>
          failedHeartbeats p' = float64_succ (failedHeartbeats p)
          /\ (0 <= failedHeartbeats p -> failedHeartbeats p' <> 0)
      end
  | (None, _) => failedHeartbeats p' = failedHeartbeats p
  end
  /\ (forall req c,
        failedHeartbeats (peer (fst (sendVoteRequest s req c w)))
        = failedHeartbeats p)
  /\ (forall d, failedHeartbeats (setHeartbeatInterval d p) = failedHeartbeats p)
  /\ (forall v, failedHeartbeats (setPrevLogIndex v p) = failedHeartbeats p).
Proof.
  intros p p'. subst p'. split; [| split; [| split]].
  - destruct (log_getEntriesAfter s (prevLogIndex p) (maxLogEntriesPerRequest s))
      as [[entries |] prevLogTerm] eqn:Hlog.
    + destruct (SendAppendEntriesRequest _ _ _) as [resp |] eqn:Hresp.
      * rewrite (flush_append_path s w entries prevLogTerm Hlog).
        now destruct (sendAppendEntriesRequest_response_backoff s _ w resp Hresp).
      * rewrite (flush_unanswered s w entries prevLogTerm Hlog Hresp).
        cbv zeta. cbn [peer].
        destruct (backoffHeartbeat_fields (peer w)) as [Hfh _].
        split; [exact Hfh |].
        intros Hpos. rewrite Hfh.
        pose proof (float64_succ_pos _ Hpos). fold p. lia.
    + rewrite (flush_snapshot_path s w prevLogTerm Hlog).
      now destruct (sendSnapshotRequest_keeps_backoff s
                      (newSnapshotRequest (name s) (snapshot s)) w).
  - intros req c.
    now rewrite sendVoteRequest_peer.
  - reflexivity.
  - reflexivity.
Qed.

(** *** More on the append-entries exchange *)

Ltac split_ifs :=
  repeat match goal with
    | |- context [if ?b then _ else _] => destruct b
    | |- context [match ?o with Some _ => _ | None => _ end] => destruct o
    end.


(** Every response to an append-entries request reaches the server,
    exactly once, under the peer's name and with what the peer reported;
    the append marker is never lowered. Without response nothing reaches
    the server. *)
Theorem append_response_forwarded_once
    (s : server) (req : AppendEntriesRequest.t) (w : World) :
  let w' := sendAppendEntriesRequest cvt s req w in
  match SendAppendEntriesRequest (transporter s) (peer w) req with
  | Some resp =>
      exists r,
        trace w' = trace w ++ [CallAppendEntries (peer w) req;
                               SentAsync (InAppendEntries r)]
        /\ AppendEntriesResponse.peer r = Name (peer w)
        /\ AppendEntriesResponse.Term r = AppendEntriesResponse.Term resp
        /\ AppendEntriesResponse.Index r = AppendEntriesResponse.Index resp
        /\ AppendEntriesResponse.CommitIndex r
           = AppendEntriesResponse.CommitIndex resp
        /\ AppendEntriesResponse.Success r = AppendEntriesResponse.Success resp
        /\ AppendEntriesResponse.append resp || AppendEntriesResponse.append r
           = AppendEntriesResponse.append r
  | None =>
      occurrences is_sent_async (trace w') = occurrences is_sent_async (trace w)
  end.
Proof.
  cbv zeta.
  destruct (SendAppendEntriesRequest (transporter s) (peer w) req)
    as [resp |] eqn:Hresp.
  - unfold sendAppendEntriesRequest. cbn [emit peer trace].
    rewrite Hresp. cbv zeta.
    destruct (AppendEntriesResponse.Success resp) eqn:Hok;
      destruct (negb _); cbn [with_peer peer trace];
      split_ifs; cbn [sendAsync emit peer trace];
      eexists; rewrite <- app_assoc;
      (split; [reflexivity |]); cbn;
      repeat split; auto using orb_true_r, orb_diag.
  - rewrite (sendAppendEntriesRequest_no_response s req w Hresp).
    cbv zeta. cbn [trace]. unfold occurrences.
    rewrite filter_app, length_app. cbn. lia.
Qed.

(** A success that answers an empty batch moves nothing: the matched
    index is as before and the response goes to the server with the
    marker as the transport delivered it. *)
Theorem append_success_empty_batch
    (s : server) (req : AppendEntriesRequest.t) (w : World)
    (resp : AppendEntriesResponse.t) :
  SendAppendEntriesRequest (transporter s) (peer w) req = Some resp ->
  AppendEntriesResponse.Success resp = true ->
  AppendEntriesRequest.Entries req = [] ->
  let w' := sendAppendEntriesRequest cvt s req w in
  prevLogIndex (peer w') = prevLogIndex (peer w)
  /\ trace w'
     = trace w ++ [CallAppendEntries (peer w) req;
                   SentAsync (InAppendEntries
                                (AppendEntriesResponse.set_peer (Name (peer w)) resp))].
Proof.
  intros Hresp Hok Hentries w'. subst w'.
  unfold sendAppendEntriesRequest. cbn [emit peer trace].
  rewrite Hresp, Hok, Hentries. cbv zeta.
  destruct (negb _); cbn; rewrite <- app_assoc; split; reflexivity.
Qed.

(** A failure response raises the matched index in one case only: the
    response is of the request's term and the index goes to the commit
    index the peer reports. Otherwise the index does not grow, and it
    does not go below zero. *)
Theorem append_failure_raises_only_to_commit
    (s : server) (req : AppendEntriesRequest.t) (w : World)
    (resp : AppendEntriesResponse.t) :
  uint64_range (prevLogIndex (peer w)) ->
  uint64_range (AppendEntriesResponse.Index resp) ->
  SendAppendEntriesRequest (transporter s) (peer w) req = Some resp ->
  AppendEntriesResponse.Success resp = false ->
  let i := prevLogIndex (peer w) in
  let i' := prevLogIndex (peer (sendAppendEntriesRequest cvt s req w)) in
  (i' = AppendEntriesResponse.CommitIndex resp
   /\ i <= AppendEntriesResponse.CommitIndex resp
   /\ AppendEntriesResponse.Term resp = AppendEntriesRequest.Term req)
  \/ (0 <= i' <= i).
Proof.
  intros Hi Hidx Hresp Hfail i i'. subst i'.
  rewrite (append_failure_prevLogIndex s req w resp Hresp Hfail).
  fold i in Hi |- *. cbv zeta. unfold uint64_range in Hi, Hidx.
  destruct (Z.gtb_spec (AppendEntriesResponse.Term resp) (currentTerm s));
    [right; lia |].
  destruct (Z.eqb_spec (AppendEntriesResponse.Term resp)
              (AppendEntriesRequest.Term req));
    destruct (Z.geb_spec (AppendEntriesResponse.CommitIndex resp) i);
    cbn [andb]; try (left; repeat split; auto; lia);
    (destruct (Z.gtb_spec i 0) as [Hpos | Hzero]; [| right; lia];
     rewrite (wrap_uint64_pred i Hi Hpos);
     destruct (Z.gtb_spec (i - 1) (AppendEntriesResponse.Index resp));
     right; lia).
Qed.

(** *** Invariants of [flush] and of the heartbeat loop *)




Lemma flush_frame (s : server) (w : World) :
  let p' := peer (flush cvt s w) in
  Name p' = Name (peer w)
  /\ ConnectionString p' = ConnectionString (peer w)
  /\ heartbeatInterval p' = heartbeatInterval (peer w).
Proof.
  cbv zeta. unfold flush, getPrevLogIndex.
  destruct (log_getEntriesAfter _ _ _) as [[entries |] prevLogTerm].
  - unfold sendAppendEntriesRequest. cbn [emit peer trace].
    destruct (SendAppendEntriesRequest _ _ _) as [resp |]; [| now cbn].
    cbv zeta.
    destruct (negb _); cbn [with_peer peer trace]; split_ifs; now cbn.
  - rewrite sendSnapshotRequest_cases. cbv zeta.
    destruct (SendSnapshotRequest _ _ _) as [offer |]; [| now cbn].
    destruct (SnapshotResponse.Success offer); [| now cbn].
    rewrite sendSnapshotRecoveryRequest_cases. cbv zeta.
    destruct (SendSnapshotRecoveryRequest _ _ _) as [resp |]; [| now cbn].
    destruct (SnapshotRecoveryResponse.Success resp); now cbn.
Qed.

(** Whatever the schedule and whatever the network answers, the heartbeat
    loop never changes the peer's name, its connection string or its base
    heartbeat interval. *)
Theorem heartbeat_keeps_identity_and_interval
    (sched : list (server * Select)) (w : World) :
  let p' := peer (fst (heartbeat cvt sched w)) in
  Name p' = Name (peer w)
  /\ ConnectionString p' = ConnectionString (peer w)
  /\ heartbeatInterval p' = heartbeatInterval (peer w).
Proof.
  cbv zeta. unfold heartbeat.
  set (w0 := with_peer _ w).
  assert (H0 : Name (peer w0) = Name (peer w)
               /\ ConnectionString (peer w0) = ConnectionString (peer w)
               /\ heartbeatInterval (peer w0) = heartbeatInterval (peer w))
    by (repeat split).
  clearbody w0. revert w0 H0.
  induction sched as [| [s c] sched IH]; intros w0 H0; [exact H0 |].
  cbn [heartbeat_loop].
  pose proof (flush_frame s w0) as (Hn & Hc & Hh).
  destruct H0 as (Hn0 & Hc0 & Hh0).
  destruct c as [fl | elapsed].
  - destruct fl; cbn [fst]; repeat split; congruence.
  - destruct (heartbeatTicker (peer w0)); [now apply IH |].
    apply IH. cbn [DispatchEvent emit peer]. repeat split; congruence.
Qed.

(** *** Probing down to the follower's commit index *)

Lemma flush_rejected_step (c : Z) (s : server) (w : World) :
  rejects_with_commit c s ->
  uint64_range (prevLogIndex (peer w)) ->
  0 <= c <= prevLogIndex (peer w) ->
  let i := prevLogIndex (peer w) in
  let i' := prevLogIndex (peer (flush cvt s w)) in
  c <= i' <= Z.max c (i - 1).
Proof.
  intros [Hlog Hae] Hi Hc i i'. subst i'.
  specialize (Hlog i (maxLogEntriesPerRequest s)).
  destruct (log_getEntriesAfter s i (maxLogEntriesPerRequest s))
    as [[entries |] prevLogTerm] eqn:E; [| now elim Hlog].
  rewrite (flush_append_path s w entries prevLogTerm E).
  set (req := newAppendEntriesRequest _ _ _ _ _ _).
  destruct (Hae (peer w) req) as (resp & Hresp & Hfail & Hterm & Hcommit & Hidx).
  rewrite (append_failure_prevLogIndex s req w resp Hresp Hfail).
  cbv zeta. fold i in Hi, Hc |- *.
  cbn [req newAppendEntriesRequest AppendEntriesRequest.Term].
  rewrite Hterm, Hcommit, Z.eqb_refl. cbn [andb].
  destruct (Z.gtb_spec (currentTerm s) (currentTerm s)); [lia |].
  destruct (Z.geb_spec c i); [lia |].
  destruct (Z.gtb_spec i 0) as [Hpos | Hzero]; [| lia].
  rewrite (wrap_uint64_pred i Hi Hpos).
  destruct (Z.gtb_spec (i - 1) (AppendEntriesResponse.Index resp)); lia.
Qed.

(** Against a follower that has committed up to [c] and keeps rejecting,
    each flush lowers the matched index by at least one until it reaches
    [c], and there it stays: after [n] flushes from [i >= c] the index
    is between [c] and [max c (i - n)]. *)
Theorem flushes_probe_down_to_commit (c : Z) (ss : list server) (w : World) :
  Forall (rejects_with_commit c) ss ->
  uint64_range (prevLogIndex (peer w)) ->
  0 <= c <= prevLogIndex (peer w) ->
  let i := prevLogIndex (peer w) in
  let i' := prevLogIndex (peer (flushes cvt ss w)) in
  c <= i' <= Z.max c (i - Z.of_nat (List.length ss)).
Proof.
  intros Hss. revert w.
  induction Hss as [| s ss Hs _ IH]; intros w Hi Hc; cbv zeta.
  - cbn. lia.
  - cbn [flushes fold_left]. fold (flushes cvt ss (flush cvt s w)).
    pose proof (flush_rejected_step c s w Hs Hi Hc) as Hstep. cbv zeta in Hstep.
    assert (Hi' : uint64_range (prevLogIndex (peer (flush cvt s w))))
      by (unfold uint64_range in *; lia).
    specialize (IH (flush cvt s w) Hi' ltac:(lia)). cbv zeta in IH.
    rewrite length_cons, Nat2Z.inj_succ. lia.
Qed.

(** *** The loop: what it serves, what it reports, when it returns *)

Lemma occurrences_app (f : Effect -> bool) (t u : list Effect) :
  occurrences f (t ++ u) = (occurrences f t + occurrences f u)%nat.
Proof. unfold occurrences. now rewrite filter_app, length_app. Qed.

Lemma no_dispatch_no_heartbeat_event (t : list Effect) :
  Forall (fun e => is_dispatched e = false) t ->
  occurrences is_heartbeat_event t = 0%nat.
Proof.
  induction 1 as [| e t He _ IH]; [reflexivity |].
  unfold occurrences in *. cbn [filter].
  destruct e; try discriminate He; exact IH.
Qed.

(** Every flush extends the trace, and with no heartbeat-completed
    event. *)
Lemma flush_trace_extends (s : server) (w : World) :
  exists done,
    trace (flush cvt s w) = trace w ++ done
    /\ occurrences is_heartbeat_event done = 0%nat.
Proof.
  destruct (log_getEntriesAfter s (prevLogIndex (peer w))
              (maxLogEntriesPerRequest s)) as [[entries |] prevLogTerm] eqn:E.
  - rewrite (flush_append_path s w entries prevLogTerm E).
    set (req := newAppendEntriesRequest _ _ _ _ _ _).
    destruct (sendAppendEntriesRequest_trace s req w) as [e [Ht He]].
    eexists. split; [exact Ht |].
    destruct (SendAppendEntriesRequest _ _ _); [now destruct e | now subst e].
  - rewrite (flush_snapshot_path s w prevLogTerm E).
    destruct (sendSnapshotRequest_trace s
                (newSnapshotRequest (name s) (snapshot s)) w)
      as [rest [Ht [Hrest _]]].
    eexists. split; [exact Ht |].
    change (CallSnapshot (peer w) (newSnapshotRequest (name s) (snapshot s)) :: rest)
      with ([CallSnapshot (peer w) (newSnapshotRequest (name s) (snapshot s))] ++ rest).
    rewrite occurrences_app, (no_dispatch_no_heartbeat_event rest); [reflexivity |].
    eapply Forall_impl; [| exact Hrest]. now intros e [_ He].
Qed.

Lemma heartbeat_loop_account (sched : list (server * Select)) (w : World) :
  let w' := fst (heartbeat_loop cvt sched w) in
  (flush_attempts (trace w') + occurrences is_heartbeat_event (trace w)
   = flush_attempts (trace w) + occurrences is_heartbeat_event (trace w')
     + match stop_signal sched with Some true => 1 | _ => 0 end)%nat
  /\ snd (heartbeat_loop cvt sched w)
     = match stop_signal sched with Some _ => true | None => false end.
Proof.
  cbv zeta. revert w.
  induction sched as [| [s c] sched IH]; intros w; [cbn; lia |].
  cbn [heartbeat_loop stop_signal].
  pose proof (flush_attempts_flush s w) as Hattempt.
  destruct (flush_trace_extends s w) as (done & Ht & Hnone).
  assert (Hev : occurrences is_heartbeat_event (trace (flush cvt s w))
                = occurrences is_heartbeat_event (trace w))
    by (rewrite Ht, occurrences_app, Hnone; lia).
  destruct c as [fl | elapsed].
  - destruct fl; cbn [fst snd]; split; auto; lia.
  - destruct (heartbeatTicker (peer w)); [apply IH |].
    destruct (IH (DispatchEvent
                    (newEvent HeartbeatEventType (DurationSource elapsed))
                    (flush cvt s w))) as [Hcount Hexit].
    split; [| exact Hexit].
    cbn [DispatchEvent emit trace] in Hcount.
    rewrite flush_attempts_app, occurrences_app in Hcount.
    cbn in Hcount. lia.
Qed.

(** Over any schedule, every flush attempt of the loop is reported by
    exactly one heartbeat-completed event, except the last flush of a
    stop with [flush = true], which is not reported; and the loop returns
    exactly when the schedule holds a stop signal, never because of what
    the network does. *)
Theorem heartbeat_reports_ticks_and_returns_on_stop
    (sched : list (server * Select)) (w : World) :
  let w' := fst (heartbeat cvt sched w) in
  (flush_attempts (trace w') + occurrences is_heartbeat_event (trace w)
   = flush_attempts (trace w) + occurrences is_heartbeat_event (trace w')
     + match stop_signal sched with Some true => 1 | _ => 0 end)%nat
  /\ snd (heartbeat cvt sched w)
     = match stop_signal sched with Some _ => true | None => false end.
Proof.
  cbv zeta. unfold heartbeat.
  exact (heartbeat_loop_account sched
           (with_peer
              (fun p => set_heartbeatTicker (time_Tick (heartbeatInterval p)) p) w)).
Qed.

(** With a nil ticker the loop serves no tick. *)
Lemma heartbeat_loop_nil_ticker (ticks : list (server * Select)) (w : World) :
  heartbeatTicker (peer w) = NilTicker ->
  forallb is_tick ticks = true ->
  heartbeat_loop cvt ticks w = (w, false).
Proof.
  intros Hnil. induction ticks as [| [s c] ticks IH]; intros Hticks;
    [reflexivity |].
  cbn in Hticks. apply andb_prop in Hticks. destruct Hticks as [Hc Hticks].
  destruct c as [fl | elapsed]; [discriminate Hc |].
  cbn [heartbeat_loop]. rewrite Hnil. now apply IH.
Qed.

(** A peer whose heartbeat interval is not positive gets the nil ticker:
    its loop never flushes on a tick and does nothing until it is
    stopped. *)
Theorem heartbeat_without_interval_never_ticks
    (ticks : list (server * Select)) (w : World) :
  heartbeatInterval (peer w) <= 0 ->
  forallb is_tick ticks = true ->
  heartbeat cvt ticks w
  = (mkWorld (set_heartbeatTicker NilTicker (peer w)) (trace w), false).
Proof.
  intros Hd Hticks. unfold heartbeat.
  assert (Hnil : time_Tick (heartbeatInterval (peer w)) = NilTicker).
  { unfold time_Tick.
    destruct (Z.leb_spec (heartbeatInterval (peer w)) 0); [reflexivity | lia]. }
  rewrite heartbeat_loop_nil_ticker.
  - unfold with_peer. now rewrite Hnil.
  - cbn. exact Hnil.
  - exact Hticks.
Qed.

(** An unanswered flush whose recomputed period is not positive (the
    product has wrapped, or the base is not positive) leaves the peer
    with the nil ticker: no later tick is served. *)
Theorem backoff_to_nonpositive_period_stops_ticks
    (s : server) (w : World) (entries : list LogEntry.t) (prevLogTerm : Z)
    (ticks : list (server * Select)) :
  log_getEntriesAfter s (prevLogIndex (peer w)) (maxLogEntriesPerRequest s)
    = (Some entries, prevLogTerm) ->
  SendAppendEntriesRequest (transporter s) (peer w)
    (newAppendEntriesRequest (currentTerm s) (prevLogIndex (peer w)) prevLogTerm
       (log_CommitIndex s) (name s) entries) = None ->
  heartbeatDuration cvt (peer (flush cvt s w)) <= 0 ->
  forallb is_tick ticks = true ->
  heartbeatTicker (peer (flush cvt s w)) = NilTicker
  /\ heartbeat_loop cvt ticks (flush cvt s w) = (flush cvt s w, false).
Proof.
  intros Hlog Hnone Hd Hticks.
  assert (Hnil : heartbeatTicker (peer (flush cvt s w)) = NilTicker).
  { revert Hd. rewrite (flush_unanswered s w entries prevLogTerm Hlog Hnone).
    cbv zeta. cbn [peer]. intros Hd.
    destruct (backoffHeartbeat_fields (peer w)) as (_ & _ & _ & ->).
    unfold time_Tick.
    destruct (Z.leb_spec (heartbeatDuration cvt (backoffHeartbeat cvt (peer w))) 0);
      [reflexivity | lia]. }
  split; [exact Hnil |].
  now apply heartbeat_loop_nil_ticker.
Qed.

(** *** The snapshot offer, the events of a flush, the ticker *)

(** The full snapshot is sent exactly when the peer accepted the offer.
    A declined or unanswered offer leaves the peer as it was and hands
    nothing to the server. *)
Theorem snapshot_recovery_only_after_acceptance
    (s : server) (req : SnapshotRequest.t) (w : World) :
  let accepted :=
    match SendSnapshotRequest (transporter s) (peer w) req with
    | Some offer => SnapshotResponse.Success offer
    | None => false
    end in
  let w' := sendSnapshotRequest s req w in
  occurrences is_recovery_call (trace w')
  = (occurrences is_recovery_call (trace w) + (if accepted then 1 else 0))%nat
  /\ (accepted = false ->
      peer w' = peer w
      /\ occurrences is_sent_async (trace w') = occurrences is_sent_async (trace w)).
Proof.
  cbv zeta. rewrite sendSnapshotRequest_cases. cbv zeta.
  destruct (SendSnapshotRequest _ _ _) as [offer |];
    [destruct (SnapshotResponse.Success offer) |].
  - split; [| discriminate].
    rewrite sendSnapshotRecoveryRequest_cases. cbv zeta. cbn [peer trace].
    destruct (SendSnapshotRecoveryRequest _ _ _) as [resp |];
      [destruct (SnapshotRecoveryResponse.Success resp) |];
      cbn [trace]; rewrite !occurrences_app; cbn; lia.
  - cbn [peer trace]. rewrite !occurrences_app. cbn. repeat split; lia.
  - cbn [peer trace]. rewrite !occurrences_app. cbn. repeat split; lia.
Qed.

(** A flush dispatches an event in one case only: it took the
    append-entries path and got no response; then it dispatches exactly
    one. In particular the reset of the back-off is not announced. *)
Theorem flush_dispatches_only_on_backoff (s : server) (w : World) :
  occurrences is_dispatched (trace (flush cvt s w))
  = (occurrences is_dispatched (trace w)
     + (if takes_append_path s w && negb (response_received s w) then 1 else 0))%nat.
Proof.
  unfold takes_append_path, response_received.
  destruct (log_getEntriesAfter s (prevLogIndex (peer w))
              (maxLogEntriesPerRequest s)) as [[entries |] prevLogTerm] eqn:E.
  - rewrite (flush_append_path s w entries prevLogTerm E). cbn [fst andb].
    set (req := newAppendEntriesRequest _ _ _ _ _ _).
    destruct (sendAppendEntriesRequest_trace s req w) as [e [Ht He]].
    rewrite Ht, occurrences_app.
    destruct (SendAppendEntriesRequest _ _ _).
    + destruct e; try discriminate He. cbn. lia.
    + subst e. cbn. lia.
  - rewrite (flush_snapshot_path s w prevLogTerm E). cbn [fst andb].
    destruct (sendSnapshotRequest_trace s
                (newSnapshotRequest (name s) (snapshot s)) w)
      as [rest [Ht [Hrest _]]].
    rewrite Ht, occurrences_app.
    change (CallSnapshot (peer w) (newSnapshotRequest (name s) (snapshot s)) :: rest)
      with ([CallSnapshot (peer w) (newSnapshotRequest (name s) (snapshot s))] ++ rest).
    rewrite occurrences_app.
    assert (Hnone : occurrences is_dispatched rest = 0%nat).
    { clear Ht. induction Hrest as [| e rest [_ He] _ IH]; [reflexivity |].
      unfold occurrences in *. cbn [filter]. now rewrite He. }
    rewrite Hnone. cbn. lia.
Qed.

(** A base interval set with [setHeartbeatInterval] is kept by the next
    flush but reaches the ticker only through the back-off: a flush that
    is answered while no heartbeat had failed leaves the ticker as it
    was; a flush that is answered after failures restarts the ticker at
    the new interval. *)
Theorem new_interval_waits_for_reset (d : Z) (s : server) (w : World) :
  let w0 := with_peer (setHeartbeatInterval d) w in
  let p' := peer (flush cvt s w0) in
  heartbeatInterval p' = d
  /\ (failedHeartbeats (peer w) = 0 ->
      (takes_append_path s w0 = true -> response_received s w0 = true) ->
      heartbeatTicker p' = heartbeatTicker (peer w))
  /\ (failedHeartbeats (peer w) <> 0 ->
      takes_append_path s w0 = true ->
      response_received s w0 = true ->
      heartbeatTicker p' = time_Tick d).
Proof.
  intros w0 p'. subst p'.
  split; [now destruct (flush_frame s w0) as (_ & _ & ->) |].
  unfold takes_append_path, response_received.
  destruct (log_getEntriesAfter s (prevLogIndex (peer w0))
              (maxLogEntriesPerRequest s)) as [[entries |] prevLogTerm] eqn:E;
    cbn [fst].
  - rewrite (flush_append_path s w0 entries prevLogTerm E).
    set (req := newAppendEntriesRequest _ _ _ _ _ _).
    destruct (SendAppendEntriesRequest (transporter s) (peer w0) req)
      as [resp |] eqn:Hresp.
    + destruct (sendAppendEntriesRequest_response_backoff s req w0 resp Hresp)
        as (_ & _ & ->).
      unfold after_response. cbn [w0 with_peer peer setHeartbeatInterval
                                   set_heartbeatInterval failedHeartbeats].
      split.
      * intros Hz _. rewrite Hz. reflexivity.
      * intros Hnz _ _.
        destruct (Z.eqb_spec (failedHeartbeats (peer w)) 0); [contradiction |].
        reflexivity.
    + split; [intros _ H; specialize (H eq_refl) | intros _ _ H]; discriminate H.
  - rewrite (flush_snapshot_path s w0 prevLogTerm E).
    destruct (sendSnapshotRequest_keeps_backoff s
                (newSnapshotRequest (name s) (snapshot s)) w0) as (_ & -> & _).
    split; [reflexivity | discriminate].
Qed.

(** [clone] keeps the name, the connection string and the matched index
    and nothing else: two peers have the same clone exactly when they
    agree on these three; cloning a clone changes nothing; and a clone
    has no timer, so that a heartbeat loop run on it serves no tick. *)
Theorem clone_keeps_identity_and_index_only
    (p q : Peer) (ticks : list (server * Select)) (t : list Effect) :
  (clone p = clone q <->
   Name p = Name q
   /\ ConnectionString p = ConnectionString q
   /\ prevLogIndex p = prevLogIndex q)
  /\ clone (clone p) = clone p
  /\ (forallb is_tick ticks = true ->
      heartbeat cvt ticks (mkWorld (clone p) t) = (mkWorld (clone p) t, false)).
Proof.
  split; [| split].
  - unfold clone. split.
    + intros H. injection H. auto.
    + intros (-> & -> & ->). reflexivity.
  - reflexivity.
  - intros Hticks. unfold heartbeat.
    now rewrite heartbeat_loop_nil_ticker.
Qed.

(** *** A new peer that cannot be reached *)

Lemma scaled_pow2_mono (d a b : Z) :
  0 < d -> 0 <= a <= b -> 0 < d * 2 ^ a <= d * 2 ^ b.
Proof.
  intros Hd Hab.
  assert (0 < 2 ^ a) by (apply Z.pow_pos_nonneg; lia).
  assert (2 ^ a <= 2 ^ b) by (apply Z.pow_le_mono_r; lia).
  split; nia.
Qed.

Lemma heartbeat_loop_unanswered_ticks (d : Z) (ticks : list (server * Select)) :
  Forall (fun c => append_unanswered (fst c) /\ is_tick c = true) ticks ->
  forall (w : World) (n : Z),
    0 < d -> 0 <= n ->
    heartbeatInterval (peer w) = d ->
    failedHeartbeats (peer w) = n ->
    heartbeatTicker (peer w) = Every (d * 2 ^ n) ->
    n + Z.of_nat (List.length ticks) < 63 ->
    int64_range (d * 2 ^ (n + Z.of_nat (List.length ticks))) ->
    let w' := fst (heartbeat_loop cvt ticks w) in
    failedHeartbeats (peer w') = n + Z.of_nat (List.length ticks)
    /\ heartbeatTicker (peer w') = Every (d * 2 ^ (n + Z.of_nat (List.length ticks)))
    /\ flush_attempts (trace w') = (flush_attempts (trace w) + List.length ticks)%nat
    /\ prevLogIndex (peer w') = prevLogIndex (peer w).
Proof.
  induction 1 as [| [s c] ticks [Hs Hc] _ IH];
    intros w n Hd Hn Hint Hfh Htick Hk Hrange; cbv zeta.
  - cbn. rewrite Z.add_0_r, Nat.add_0_r. auto.
  - destruct c as [fl | elapsed]; [discriminate Hc |].
    cbn [fst] in Hs. cbn [heartbeat_loop]. rewrite Htick.
    rewrite length_cons, Nat2Z.inj_succ in Hk, Hrange |- *.
    set (w1 := DispatchEvent _ (flush cvt s w)).
    assert (Hp1 : peer w1 = backoffHeartbeat cvt (peer w))
      by (unfold w1; cbn [DispatchEvent emit peer];
          now apply flush_append_unanswered).
    destruct (backoffHeartbeat_fields (peer w)) as (Hfh1 & Hint1 & Hidx1 & Htick1).
    rewrite <- Hp1 in Hfh1, Hint1, Hidx1, Htick1.
    rewrite Hfh, float64_succ_exact in Hfh1 by lia.
    rewrite Hint in Hint1.
    pose proof (scaled_pow2_mono d (n + 1)
                  (n + Z.succ (Z.of_nat (List.length ticks))) Hd ltac:(lia))
      as Hmono.
    assert (Hdur : heartbeatDuration cvt (peer w1) = d * 2 ^ (n + 1)).
    { rewrite heartbeatDuration_exact; rewrite Hfh1, ?Hint1; [reflexivity | lia |].
      unfold int64_range, min_int64, max_int64 in *. lia. }
    rewrite Hdur in Htick1.
    assert (Hevery : heartbeatTicker (peer w1) = Every (d * 2 ^ (n + 1))).
    { rewrite Htick1. unfold time_Tick.
      destruct (Z.leb_spec (d * 2 ^ (n + 1)) 0); [lia | reflexivity]. }
    destruct (IH w1 (n + 1)) as (IHfh & IHtick & IHatt & IHidx); auto; try lia.
    { replace (n + 1 + Z.of_nat (List.length ticks))
        with (n + Z.succ (Z.of_nat (List.length ticks))) by lia.
      exact Hrange. }
    rewrite IHfh, IHtick, IHatt, IHidx, Hidx1.
    replace (n + 1 + Z.of_nat (List.length ticks))
      with (n + Z.succ (Z.of_nat (List.length ticks))) by lia.
    repeat split; auto.
    unfold w1. cbn [DispatchEvent emit trace].
    rewrite flush_attempts_app, flush_attempts_flush. cbn. lia.
Qed.

(** A peer fresh from [newPeer], with a positive interval [d], whose
    loop sees [k] ticks while the peer cannot be reached: every tick is
    served, the count of failed heartbeats is [k], the ticker has been
    slowed down to [d * 2^k] (as long as that fits a 64-bit duration) and
    the matched index is still 0. *)
Theorem new_peer_unreachable_backs_off
    (name connectionString : string) (d : Z) (ticks : list (server * Select)) :
  0 < d ->
  Z.of_nat (List.length ticks) < 63 ->
  int64_range (d * 2 ^ Z.of_nat (List.length ticks)) ->
  Forall (fun c => append_unanswered (fst c) /\ is_tick c = true) ticks ->
  let w' := fst (heartbeat cvt ticks (mkWorld (newPeer name connectionString d) [])) in
  failedHeartbeats (peer w') = Z.of_nat (List.length ticks)
  /\ heartbeatTicker (peer w') = Every (d * 2 ^ Z.of_nat (List.length ticks))
  /\ flush_attempts (trace w') = List.length ticks
  /\ prevLogIndex (peer w') = 0.
Proof.
  intros Hd Hk Hrange Hticks. cbv zeta. unfold heartbeat.
  set (w0 := with_peer _ _).
  destruct (heartbeat_loop_unanswered_ticks d ticks Hticks w0 0)
    as (Hfh & Htick & Hatt & Hidx);
    [exact Hd | lia | reflexivity | reflexivity | | lia | exact Hrange |].
  - cbn. unfold time_Tick.
    destruct (Z.leb_spec d 0); [lia |]. now rewrite Z.mul_1_r.
  - repeat split; assumption.
Qed.

End Properties.

(** ** The properties at work on the concrete peers *)

(** The peer is matched at 10 and the log hands out entries 11 to 15: the
    flush sends them in one request and forwards the answer, marked as a
    current-term append. *)
Example flush_sends_entries_11_to_15 :
  flush ex_overflow ex_accepting (ex_world 0)
  = mkWorld (set_prevLogIndex 15 (ex_peer 0))
      [CallAppendEntries (ex_peer 0) ex_request;
       SentAsync (InAppendEntries (AppendEntriesResponse.mk 3 15 10 true "node2" true))].
Proof. reflexivity. Qed.

(** A compacted log: the flush offers the snapshot instead. *)
Example flush_offers_snapshot :
  trace (flush ex_overflow ex_compacted_unreachable (ex_world 0))
  = [CallSnapshot (ex_peer 0) (SnapshotRequest.mk "node1" 20 3)].
Proof. reflexivity. Qed.

(** A granted vote reaches the results channel with the voter attached; a
    lost one leaves the channel as it was. *)
Example vote_is_delivered :
  snd (sendVoteRequest
         (ex_server (constant_transport None None None (Some ex_vote)))
         ex_vote_request [] (ex_world 0))
  = [RequestVoteResponse.mk (Some (ex_peer 0)) 4 true].
Proof. reflexivity. Qed.

Example lost_vote_is_not_delivered :
  snd (sendVoteRequest ex_unreachable ex_vote_request [] (ex_world 0)) = [].
Proof. reflexivity. Qed.

(** The scenario of the specification: the peer is matched at 10, entries
    11 to 15 are sent and accepted, entry 15 is of the current term. *)
Lemma append_success_advances_prevLogIndex_witness :
  prevLogIndex
    (peer (sendAppendEntriesRequest ex_overflow ex_accepting ex_request (ex_world 0)))
  = 15
  /\ exists r,
       trace (sendAppendEntriesRequest ex_overflow ex_accepting ex_request (ex_world 0))
       = [CallAppendEntries (ex_peer 0) ex_request; SentAsync (InAppendEntries r)]
       /\ AppendEntriesResponse.append r = true
       /\ r = AppendEntriesResponse.mk 3 15 10 true "node2" true.
Proof.
  destruct (append_success_advances_prevLogIndex ex_overflow ex_accepting ex_request
              (ex_world 0) ae_success
              [LogEntry.mk 11 2 "a"; LogEntry.mk 12 2 "b"; LogEntry.mk 13 3 "c";
               LogEntry.mk 14 3 "d"]
              (LogEntry.mk 15 3 "e")) as [Hidx Hmark].
  - reflexivity.
  - reflexivity.
  - reflexivity.
  - split; [exact Hidx | apply Hmark; reflexivity].
Defined.

(** Conflict index 3 while the matched index is 10: down to 9, then to 3. *)
Lemma append_failure_decrements_prevLogIndex_witness :
  prevLogIndex
    (peer (sendAppendEntriesRequest ex_overflow ex_conflicting ex_request (ex_world 0)))
  = 3.
Proof.
  destruct (append_failure_decrements_prevLogIndex ex_overflow ex_conflicting
              ex_request (ex_world 0) ae_conflict) as [Hdec _].
  - unfold uint64_range. simpl. lia.
  - unfold uint64_range. simpl. lia.
  - reflexivity.
  - reflexivity.
  - simpl. lia.
  - simpl. lia.
  - destruct Hdec as [Hmin _]; [simpl; lia | exact Hmin].
Defined.

(** A lost acknowledgement (commit index 12 against a matched index of
    10) and a response from term 4. *)
Lemma append_failure_recovers_or_keeps_prevLogIndex_witness :
  prevLogIndex (peer (flush ex_overflow ex_lost_ack (ex_world 0))) = 12
  /\ prevLogIndex (peer (flush ex_overflow ex_newer_term (ex_world 0))) = 10.
Proof.
  split.
  - destruct (append_failure_recovers_or_keeps_prevLogIndex ex_overflow
                ex_lost_ack (ex_world 0) ex_entries 2 ae_lost_ack)
      as [Hrecover _]; [reflexivity | reflexivity | reflexivity |].
    apply Hrecover; [reflexivity | simpl; lia].
  - destruct (append_failure_recovers_or_keeps_prevLogIndex ex_overflow
                ex_newer_term (ex_world 0) ex_entries 2 ae_newer_term)
      as [_ Hkeep]; [reflexivity | reflexivity | reflexivity |].
    apply Hkeep. simpl. lia.
Defined.

(** An accepted offer followed by a successful recovery: the matched index
    jumps to the snapshot's index 20. *)
Lemma snapshot_recovery_outcome_witness :
  prevLogIndex
    (peer (sendSnapshotRequest ex_installing
             (newSnapshotRequest "node1" ex_snapshot) (ex_world 0))) = 20
  /\ trace (sendSnapshotRequest ex_installing
              (newSnapshotRequest "node1" ex_snapshot) (ex_world 0))
     = [] ++ [CallSnapshot (ex_peer 0) (newSnapshotRequest "node1" ex_snapshot);
              CallSnapshotRecovery (ex_peer 0)
                (newSnapshotRecoveryRequest "node1" ex_snapshot)]
          ++ [SentAsync (InSnapshotRecovery ex_recovery)].
Proof.
  apply (snapshot_recovery_outcome ex_installing
           (newSnapshotRequest "node1" ex_snapshot) (ex_world 0)
           (SnapshotResponse.mk true)); reflexivity.
Defined.

(** An unreachable peer while the log is compacted. *)
Lemma snapshot_failure_no_backoff_witness :
  failedHeartbeats (peer (flush ex_overflow ex_compacted_unreachable (ex_world 2))) = 2
  /\ heartbeatTicker (peer (flush ex_overflow ex_compacted_unreachable (ex_world 2)))
     = Every 50000000
  /\ peer (flush ex_overflow ex_compacted_unreachable (ex_world 2)) = ex_peer 2
  /\ exists done,
       trace (flush ex_overflow ex_compacted_unreachable (ex_world 2)) = [] ++ done
       /\ Forall (fun e => is_snapshot_call e = true /\ is_dispatched e = false) done.
Proof.
  apply (snapshot_failure_no_backoff ex_overflow ex_compacted_unreachable
           (ex_world 2) 0).
  - reflexivity.
  - left. reflexivity.
Defined.

(** One tick, then a stop signal: two attempts with [flush = true], one
    with [flush = false]; the tick scheduled after the signal is not
    served. *)
Lemma heartbeat_stop_flushes_once_or_never_witness :
  (snd (heartbeat ex_overflow
          ([(ex_accepting, TickerFired 1000)]
           ++ (ex_accepting, StopChan true) :: [(ex_accepting, TickerFired 1000)])
          (ex_world 0)) = true
   /\ flush_attempts
        (trace (fst (heartbeat ex_overflow
                       ([(ex_accepting, TickerFired 1000)]
                        ++ (ex_accepting, StopChan true)
                           :: [(ex_accepting, TickerFired 1000)])
                       (ex_world 0)))) = 2%nat)
  /\ (snd (heartbeat ex_overflow
             ([(ex_accepting, TickerFired 1000)]
              ++ (ex_accepting, StopChan false) :: [(ex_accepting, TickerFired 1000)])
             (ex_world 0)) = true
      /\ flush_attempts
           (trace (fst (heartbeat ex_overflow
                          ([(ex_accepting, TickerFired 1000)]
                           ++ (ex_accepting, StopChan false)
                              :: [(ex_accepting, TickerFired 1000)])
                          (ex_world 0)))) = 1%nat).
Proof.
  split.
  - destruct (heartbeat_stop_flushes_once_or_never ex_overflow
                [(ex_accepting, TickerFired 1000)] ex_accepting true
                [(ex_accepting, TickerFired 1000)] (ex_world 0))
      as [_ [Hexit [_ Hcount]]]; [reflexivity |].
    split; [exact Hexit | exact Hcount].
  - destruct (heartbeat_stop_flushes_once_or_never ex_overflow
                [(ex_accepting, TickerFired 1000)] ex_accepting false
                [(ex_accepting, TickerFired 1000)] (ex_world 0))
      as [_ [Hexit [_ Hcount]]]; [reflexivity |].
    split; [exact Hexit | exact Hcount].
Defined.

(** Three failed heartbeats of a 50ms peer: the next tick is 400ms away;
    one answer brings it back to 50ms. *)
Lemma backoff_doubles_within_int64_witness :
  heartbeatDuration ex_overflow
    (peer (flush ex_overflow ex_unreachable (ex_world 2))) = 400000000
  /\ heartbeatDuration ex_overflow
       (peer (flushes ex_overflow [ex_unreachable; ex_unreachable; ex_unreachable]
                (ex_world 0))) = 400000000
  /\ heartbeatDuration ex_overflow
       (peer (flush ex_overflow ex_accepting (ex_world 3))) = 50000000.
Proof.
  destruct (backoff_doubles_within_int64 ex_overflow) as [Hone [Hmany Hreset]].
  split; [| split].
  - destruct (Hone ex_unreachable (ex_world 2) ex_entries 2)
      as (_ & _ & _ & _ & _ & Hexact); [reflexivity | reflexivity |].
    destruct Hexact as (_ & Hduration & _).
    + simpl. lia.
    + simpl. lia.
    + unfold int64_range, min_int64, max_int64. simpl. lia.
    + exact Hduration.
  - destruct (Hmany [ex_unreachable; ex_unreachable; ex_unreachable] (ex_world 0))
      as (_ & Hduration & _).
    + repeat constructor; intros; simpl; discriminate.
    + reflexivity.
    + simpl. lia.
    + unfold int64_range, min_int64, max_int64. simpl. lia.
    + exact Hduration.
  - destruct (Hreset ex_accepting (ex_world 3) ex_entries 2 ae_success)
      as (_ & _ & _ & Hduration); [reflexivity | reflexivity |].
    apply Hduration.
    unfold int64_range, min_int64, max_int64. simpl. lia.
Defined.

(** The claim as the specification words it fails twice: a flush on the
    snapshot path that gets no response does not count a failure; and on
    the append path, 38 failures of a 50ms peer ask for a period of
    [50ms * 2^38], which no 64-bit duration holds: the product wraps. *)
Lemma backoff_doubles_counterexample :
  (response_received ex_compacted_unreachable (ex_world 2) = false
   /\ failedHeartbeats (peer (flush ex_overflow ex_compacted_unreachable (ex_world 2)))
      = 2)
  /\ (takes_append_path ex_unreachable (ex_world 37) = true
      /\ response_received ex_unreachable (ex_world 37) = false
      /\ failedHeartbeats (peer (flush ex_overflow ex_unreachable (ex_world 37))) = 38
      /\ heartbeatDuration ex_overflow
           (peer (flush ex_overflow ex_unreachable (ex_world 37)))
         = -4702848726509551616
      /\ 50000000 * 2 ^ 38 = 13743895347200000000
      /\ heartbeatTicker (peer (flush ex_overflow ex_unreachable (ex_world 37)))
         = NilTicker)
  /\ ~ (forall (cvt : Z -> Z) (s : server) (w : World),
          response_received s w = false ->
          failedHeartbeats (peer (flush cvt s w)) = failedHeartbeats (peer w) + 1)
  /\ ~ (forall (cvt : Z -> Z) (s : server) (w : World),
          takes_append_path s w = true ->
          response_received s w = false ->
          heartbeatDuration cvt (peer (flush cvt s w))
          = heartbeatInterval (peer w) * 2 ^ failedHeartbeats (peer (flush cvt s w))).
Proof.
  split; [| split; [| split]].
  - split; reflexivity.
  - repeat split; reflexivity.
  - intros H.
    specialize (H ex_overflow ex_compacted_unreachable (ex_world 2) eq_refl).
    vm_compute in H. discriminate H.
  - intros H.
    specialize (H ex_overflow ex_unreachable (ex_world 37) eq_refl eq_refl).
    vm_compute in H. discriminate H.
Qed.

(** A peer that backed off twice, then answers on the snapshot path. *)
Lemma failedHeartbeats_reset_by_append_response_only_witness :
  failedHeartbeats (peer (flush ex_overflow ex_accepting (ex_world 2))) = 0
  /\ failedHeartbeats (peer (flush ex_overflow ex_unreachable (ex_world 2))) <> 0
  /\ failedHeartbeats (peer (flush ex_overflow ex_installing (ex_world 2))) = 2.
Proof.
  split; [| split].
  - destruct (failedHeartbeats_reset_by_append_response_only ex_overflow
                ex_accepting (ex_world 2)) as [Hflush _].
    exact Hflush.
  - destruct (failedHeartbeats_reset_by_append_response_only ex_overflow
                ex_unreachable (ex_world 2)) as [Hflush _].
    hnf in Hflush. destruct Hflush as [_ Hnz]. apply Hnz. simpl. lia.
  - destruct (failedHeartbeats_reset_by_append_response_only ex_overflow
                ex_installing (ex_world 2)) as [Hflush _].
    exact Hflush.
Defined.

(** The claim as the specification words it fails: the peer answers both
    snapshot requests, and its two failed heartbeats are still counted. *)
Lemma failedHeartbeats_reset_counterexample :
  response_received ex_installing (ex_world 2) = true
  /\ failedHeartbeats (peer (flush ex_overflow ex_installing (ex_world 2))) = 2
  /\ ~ (forall (cvt : Z -> Z) (s : server) (w : World),
          response_received s w = true ->
          failedHeartbeats (peer (flush cvt s w)) = 0).
Proof.
  split; [reflexivity | split; [reflexivity |]].
  intros H.
  specialize (H ex_overflow ex_installing (ex_world 2) eq_refl).
  vm_compute in H. discriminate H.
Qed.

(** ** Further properties at work on the concrete peers *)

Lemma append_success_empty_batch_witness :
  prevLogIndex
    (peer (sendAppendEntriesRequest ex_overflow ex_accepting ex_heartbeat_request
             (ex_world 0))) = 10
  /\ trace (sendAppendEntriesRequest ex_overflow ex_accepting ex_heartbeat_request
              (ex_world 0))
     = [] ++ [CallAppendEntries (ex_peer 0) ex_heartbeat_request;
              SentAsync (InAppendEntries
                           (AppendEntriesResponse.mk 3 15 10 true "node2" false))].
Proof.
  apply (append_success_empty_batch ex_overflow ex_accepting ex_heartbeat_request
           (ex_world 0) ae_success); reflexivity.
Defined.



(** The lost acknowledgement raises the index from 10 to the reported
    commit index 12; the conflict lowers it. *)
Lemma append_failure_raises_only_to_commit_witness :
  ((prevLogIndex
      (peer (sendAppendEntriesRequest ex_overflow ex_lost_ack ex_request (ex_world 0)))
    = 12 /\ 10 <= 12 /\ 3 = 3)
   \/ 0 <= prevLogIndex
             (peer (sendAppendEntriesRequest ex_overflow ex_lost_ack ex_request
                      (ex_world 0))) <= 10)
  /\ ((prevLogIndex
         (peer (sendAppendEntriesRequest ex_overflow ex_conflicting ex_request
                  (ex_world 0)))
       = 2 /\ 10 <= 2 /\ 3 = 3)
      \/ 0 <= prevLogIndex
                (peer (sendAppendEntriesRequest ex_overflow ex_conflicting ex_request
                         (ex_world 0))) <= 10).
Proof.
  split.
  - apply (append_failure_raises_only_to_commit ex_overflow ex_lost_ack ex_request
             (ex_world 0) ae_lost_ack).
    + unfold uint64_range. simpl. lia.
    + unfold uint64_range. simpl. lia.
    + reflexivity.
    + reflexivity.
  - apply (append_failure_raises_only_to_commit ex_overflow ex_conflicting ex_request
             (ex_world 0) ae_conflict).
    + unfold uint64_range. simpl. lia.
    + unfold uint64_range. simpl. lia.
    + reflexivity.
    + reflexivity.
Defined.

Lemma ex_behind_rejects : rejects_with_commit 7 ex_behind.
Proof.
  split.
  - intros i n. simpl. discriminate.
  - intros p req. exists ae_behind. repeat split; simpl; lia.
Defined.

(** Five flushes against a follower that committed up to 7: from 10 the
    index is down to 7, not below. *)
Lemma flushes_probe_down_to_commit_witness :
  7 <= prevLogIndex
         (peer (flushes ex_overflow
                  [ex_behind; ex_behind; ex_behind; ex_behind; ex_behind]
                  (ex_world 0)))
    <= Z.max 7 (10 - 5).
Proof.
  apply (flushes_probe_down_to_commit ex_overflow 7
           [ex_behind; ex_behind; ex_behind; ex_behind; ex_behind] (ex_world 0)).
  - repeat (apply Forall_cons; [exact ex_behind_rejects |]). apply Forall_nil.
  - unfold uint64_range. simpl. lia.
  - simpl. lia.
Defined.

(** A peer created with a zero interval. *)
Lemma heartbeat_without_interval_never_ticks_witness :
  heartbeat ex_overflow
    [(ex_accepting, TickerFired 1000); (ex_accepting, TickerFired 1000)]
    (mkWorld (newPeer "node2" "http://node2:4001" 0) [])
  = (mkWorld (set_heartbeatTicker NilTicker (newPeer "node2" "http://node2:4001" 0))
       [], false).
Proof.
  apply (heartbeat_without_interval_never_ticks ex_overflow
           [(ex_accepting, TickerFired 1000); (ex_accepting, TickerFired 1000)]
           (mkWorld (newPeer "node2" "http://node2:4001" 0) [])).
  - simpl. lia.
  - reflexivity.
Defined.

(** The 38th failure of the 50ms peer: the period has wrapped below zero
    and the two ticks that follow are not served. *)
Lemma backoff_to_nonpositive_period_stops_ticks_witness :
  heartbeatTicker (peer (flush ex_overflow ex_unreachable (ex_world 37))) = NilTicker
  /\ heartbeat_loop ex_overflow
       [(ex_accepting, TickerFired 1000); (ex_accepting, TickerFired 1000)]
       (flush ex_overflow ex_unreachable (ex_world 37))
     = (flush ex_overflow ex_unreachable (ex_world 37), false).
Proof.
  apply (backoff_to_nonpositive_period_stops_ticks ex_overflow ex_unreachable
           (ex_world 37) ex_entries 2).
  - reflexivity.
  - reflexivity.
  - vm_compute. intros H. discriminate H.
  - reflexivity.
Defined.

(** A declined offer. *)
Lemma snapshot_recovery_only_after_acceptance_witness :
  peer (sendSnapshotRequest ex_declining (newSnapshotRequest "node1" ex_snapshot)
          (ex_world 0)) = ex_peer 0
  /\ occurrences is_sent_async
       (trace (sendSnapshotRequest ex_declining
                 (newSnapshotRequest "node1" ex_snapshot) (ex_world 0)))
     = occurrences is_sent_async [].
Proof.
  destruct (snapshot_recovery_only_after_acceptance ex_declining
              (newSnapshotRequest "node1" ex_snapshot) (ex_world 0)) as [_ Hkept].
  apply Hkept. reflexivity.
Defined.

(** The interval goes from 50ms to 100ms: a healthy peer keeps ticking
    every 50ms; a peer that had failed twice restarts at 100ms. *)
Lemma new_interval_waits_for_reset_witness :
  heartbeatTicker
    (peer (flush ex_overflow ex_accepting
             (with_peer (setHeartbeatInterval 100000000) (ex_world 0))))
  = Every 50000000
  /\ heartbeatTicker
       (peer (flush ex_overflow ex_accepting
                (with_peer (setHeartbeatInterval 100000000) (ex_world 2))))
     = time_Tick 100000000.
Proof.
  split.
  - destruct (new_interval_waits_for_reset ex_overflow 100000000 ex_accepting
                (ex_world 0)) as (_ & Hkept & _).
    apply Hkept; reflexivity.
  - destruct (new_interval_waits_for_reset ex_overflow 100000000 ex_accepting
                (ex_world 2)) as (_ & _ & Hreset).
    apply Hreset; [simpl; lia | reflexivity | reflexivity].
Defined.

(** Two states of the same peer, before and after two failures. *)
Lemma clone_keeps_identity_and_index_only_witness :
  clone (ex_peer 0) = clone (ex_peer 2)
  /\ heartbeat ex_overflow [(ex_accepting, TickerFired 1000)]
       (mkWorld (clone (ex_peer 0)) [])
     = (mkWorld (clone (ex_peer 0)) [], false).
Proof.
  destruct (clone_keeps_identity_and_index_only ex_overflow (ex_peer 0) (ex_peer 2)
              [(ex_accepting, TickerFired 1000)] []) as (Hsame & _ & Hinert).
  split.
  - apply Hsame. repeat split.
  - apply Hinert. reflexivity.
Defined.

Lemma ex_unreachable_unanswered : append_unanswered ex_unreachable.
Proof.
  split.
  - intros i n. simpl. discriminate.
  - intros p req. reflexivity.
Defined.

(** Three lost ticks of a new 50ms peer: the ticker is at 400ms. *)
Lemma new_peer_unreachable_backs_off_witness :
  failedHeartbeats
    (peer (fst (heartbeat ex_overflow ex_lost_ticks
                  (mkWorld (newPeer "node2" "http://node2:4001" 50000000) []))))
  = Z.of_nat (List.length ex_lost_ticks)
  /\ heartbeatTicker
       (peer (fst (heartbeat ex_overflow ex_lost_ticks
                     (mkWorld (newPeer "node2" "http://node2:4001" 50000000) []))))
     = Every (50000000 * 2 ^ Z.of_nat (List.length ex_lost_ticks))
  /\ flush_attempts
       (trace (fst (heartbeat ex_overflow ex_lost_ticks
                      (mkWorld (newPeer "node2" "http://node2:4001" 50000000) []))))
     = List.length ex_lost_ticks
  /\ prevLogIndex
       (peer (fst (heartbeat ex_overflow ex_lost_ticks
                     (mkWorld (newPeer "node2" "http://node2:4001" 50000000) []))))
     = 0.
Proof.
  apply (new_peer_unreachable_backs_off ex_overflow "node2" "http://node2:4001"
           50000000 ex_lost_ticks).
  - lia.
  - simpl. lia.
  - unfold int64_range, min_int64, max_int64. simpl. lia.
  - repeat (apply Forall_cons; [split; [exact ex_unreachable_unanswered | reflexivity] |]).
    apply Forall_nil.
Defined.
